(** * indigo: the rainbow fan-out daemon, the automod effects accumulator,
      the PDS query-parameter stubs and a generated XRPC client

    A shallow embedding of
    - [cmd/rainbow/main.go] (functions [run] and [Splitter]),
    - [automod/engine/effects.go] (type [Effects] and its methods),
    - [pds/stubs.go] (the GET handlers that read a [limit] parameter, the
      handler of the invite codes of an account and the handlers that
      stream),
    - [api/bsky/graphgetListBlocks.go] (function [GraphGetListBlocks]),
    together with a model, written from the specification, of the relay
    engine whose code lives in the [splitter] and [events] packages.
    The models come first, then the properties, module by module. *)

From Stdlib Require Import ZArith Floats Lia List Bool Ascii.
From stdpp Require Import gmap strings list sorting.

Open Scope Z_scope.

(** ** Go scalar types *)

(** Go's [error] values: one made from a message ([errors.New],
    [fmt.Errorf]) or a [*strconv.NumError]. *)
Inductive error : Type :=
| errors_New (msg : string)
| NumError (Func Num Err : string).

Definition int64_min : Z := - 2 ^ 63.
Definition int64_max : Z := 2 ^ 63 - 1.

(** The conversion [uint64(x)] of a signed 64-bit integer keeps the bit
    pattern: the value is taken modulo 2^64. *)
Definition uint64 (x : Z) : Z := x mod 2 ^ 64.

(** The conversion [float64(x)] of a non-negative [int64]. *)
Definition float64 (x : Z) : float := PrimFloat.of_uint63 (Uint63.of_Z x).

(** The integer part of a binary64 number, when it is finite. *)
Definition float64_trunc (f : float) : option Z :=
  match Prim2SF f with
  | S754_zero _ => Some 0
  | S754_finite s m e =>
      let mag := if 0 <=? e then Z.pos m * 2 ^ e else Z.pos m / 2 ^ (- e) in
      Some (if s then - mag else mag)
  | S754_infinity _ | S754_nan => None
  end.

(** The conversion [int64(f)] of a [float64]: the fraction is discarded.
    Go leaves the result open when the value does not fit; the value used
    here is the one amd64 produces ([CVTTSD2SI]'s integer indefinite). *)
Definition int64_of_float64 (f : float) : Z :=
  match float64_trunc f with
  | Some z => if (int64_min <=? z) && (z <=? int64_max) then z else int64_min
  | None => int64_min
  end.

(** ** Computations with a log of external calls *)

(** A computation returns the calls it made, in order, and either stops
    early with an [X] or yields an [A]. *)
Definition Eff (E X A : Type) : Type := (list E * (X + A))%type.

Definition ret {E X A : Type} (a : A) : Eff E X A := ([], inr a).

Definition stop {E X A : Type} (x : X) : Eff E X A := ([], inl x).

Definition emit {E X : Type} (e : E) : Eff E X unit := ([e], inr tt).

Definition bind {E X A B : Type} (m : Eff E X A) (k : A -> Eff E X B) : Eff E X B :=
  match m with
  | (tr, inl x) => (tr, inl x)
  | (tr, inr a) => let '(tr', r) := k a in (tr ++ tr', r)
  end.

Declare Scope eff_scope.
Delimit Scope eff_scope with eff.
Notation "x <- m ;; k" := (bind m (fun x => k))
  (at level 100, m at next level, right associativity) : eff_scope.
Notation "m ;;; k" := (bind m (fun _ => k))
  (at level 100, right associativity) : eff_scope.

Definition calls {E X A : Type} (m : Eff E X A) : list E := fst m.

(** ** Package [time] *)

Module time.

Definition Duration : Type := Z.

Definition Nanosecond : Duration := 1.
Definition Microsecond : Duration := 1000 * Nanosecond.
Definition Millisecond : Duration := 1000 * Microsecond.
Definition Second : Duration := 1000 * Millisecond.
Definition Minute : Duration := 60 * Second.
Definition Hour : Duration := 60 * Minute.

End time.

(** ** Package [cli]: flags and the parsed context *)

Module cli.

Inductive FlagValue : Type :=
| BoolValue (b : bool)
| StringValue (s : string)
| Float64Value (f : float)
| Int64Value (z : Z).

Record Flag : Type := {
  Name : string;
  Value : FlagValue;
  Usage : string;
  EnvVars : list string;
}.

(** The context holds one value per flag: the declared default, replaced
    by what the command line or the environment gave. *)
Abbreviation Context := (gmap string FlagValue).

Definition defaults (flags : list Flag) : Context :=
  list_to_map (map (fun f => (Name f, Value f)) flags).

Definition newContext (flags : list Flag) (given : gmap string FlagValue) : Context :=
  given ∪ defaults flags.

(** The typed look-ups return the zero value for a name that is not a
    flag of that type. *)
Definition Bool (cctx : Context) (name : string) : bool :=
  match cctx !! name with Some (BoolValue b) => b | _ => false end.

Definition String (cctx : Context) (name : string) : string :=
  match cctx !! name with Some (StringValue s) => s | _ => "" end.

Definition Float64 (cctx : Context) (name : string) : float :=
  match cctx !! name with Some (Float64Value f) => f | _ => 0%float end.

Definition Int64 (cctx : Context) (name : string) : Z :=
  match cctx !! name with Some (Int64Value z) => z | _ => 0 end.

#[global] Arguments Bool : simpl never.
#[global] Arguments String : simpl never.
#[global] Arguments Float64 : simpl never.
#[global] Arguments Int64 : simpl never.

End cli.

(** ** Packages [events] and [splitter]: the options [main.go] fills in *)

Module events.

Record PebblePersistOptions : Type := {
  DbPath : string;
  PersistDuration : time.Duration;
  GCPeriod : time.Duration;
  MaxBytes : Z;
}.

End events.

Module splitter.

Record SplitterConfig : Type := {
  UpstreamHost : string;
  CursorFile : string;
  PebbleOptions : option events.PebblePersistOptions;
}.

End splitter.

(** ** [cmd/rainbow/main.go] *)

Module rainbow.

Import cli.

(** The calls [Splitter] makes into other packages. *)
Inductive Call : Type :=
| NewTraceExporter
| NewSplitter (conf : splitter.SplitterConfig)
| StartMetrics (listen : string)
| Start (addr : string)
| Shutdown.

(** What the process meets once start-up is complete: [Splitter] waits in
    a [select] on the signal channel and on [runErr], while the metrics
    goroutine may call [log.Fatalf]. *)
Inductive Happening : Type :=
| Signal
| StartReturned (err : option error)
| StartMetricsFailed (err : error)
| Quiet.

(** Everything outside the program that decides a run. Help and version
    requests, which [cli] answers by itself, are left out. *)
Record World : Type := {
  parse_args : error + gmap string FlagValue;
  OTEL_EXPORTER_OTLP_ENDPOINT : string;
  otlptracehttp_New : option error;
  splitter_NewSplitter : splitter.SplitterConfig -> option error;
  after_startup : Happening;
  spl_Shutdown : option error;
}.

(** How a run stops: the process exits with a code, or it stays in the
    [select] for ever. *)
Inductive Halt : Type :=
| Exited (code : Z)
| Waiting.

Definition Proc (A : Type) : Type := Eff Call Halt A.

(** [log.Fatal], [log.Fatalw] and [log.Fatalf] log and call [os.Exit(1)]. *)
Definition log_Fatal {A : Type} : Proc A := stop (Exited 1).

(** [log.Errorw] only logs. *)
Definition log_Errorw : Proc unit := ret tt.

(** [if err != nil { log.Errorw(...) }] *)
Definition log_if_error (err : option error) : Proc unit :=
  match err with
  | Some _ => log_Errorw
  | None => ret tt
  end.

(** The flags declared in [run]. *)
Definition app_Flags : list Flag := [
  {| Name := "crawl-insecure-ws";
     Value := BoolValue false;
     Usage := "when connecting to PDS instances, use ws:// instead of wss://";
     EnvVars := ["RAINBOW_INSECURE_CRAWL"] |};
  {| Name := "splitter-host";
     Value := StringValue "bsky.network";
     Usage := "";
     EnvVars := ["ATP_RELAY_HOST"; "RAINBOW_RELAY_HOST"] |};
  {| Name := "persist-db";
     Value := StringValue "./rainbow.db";
     Usage := "path to persistence db";
     EnvVars := ["RAINBOW_DB_PATH"] |};
  {| Name := "cursor-file";
     Value := StringValue "./rainbow-cursor";
     Usage := "write upstream cursor number to this file";
     EnvVars := ["RAINBOW_CURSOR_PATH"] |};
  {| Name := "api-listen";
     Value := StringValue ":2480";
     Usage := "";
     EnvVars := ["RAINBOW_API_LISTEN"] |};
  {| Name := "metrics-listen";
     Value := StringValue ":2481";
     Usage := "";
     EnvVars := ["RAINBOW_METRICS_LISTEN"; "SPLITTER_METRICS_LISTEN"] |};
  {| Name := "persist-hours";
     Value := Float64Value (24 * 7)%float;
     Usage := "hours to buffer (float, may be fractional)";
     EnvVars := ["SPLITTER_PERSIST_HOURS"] |};
  {| Name := "persist-bytes";
     Value := Int64Value 0;
     Usage := "max bytes target for event cache, 0 to disable size target trimming";
     EnvVars := ["RAINBOW_PERSIST_BYTES"; "SPLITTER_PERSIST_BYTES"] |}
].

Local Open Scope eff_scope.

(** [Splitter], the action of the app. *)
Definition Splitter (w : World) (cctx : Context) : Proc (option error) :=
  (if decide (OTEL_EXPORTER_OTLP_ENDPOINT w <> "")
   then
     emit NewTraceExporter ;;;
     match otlptracehttp_New w with
     | Some _ => log_Fatal
     | None => ret tt
     end
   else ret tt) ;;;
  let persistPath := String cctx "persist-db" in
  let upstreamHost := String cctx "splitter-host" in
  err <- (if decide (persistPath <> "")
          then
            let ppopts := {|
              events.DbPath := persistPath;
              events.PersistDuration :=
                int64_of_float64 (float64 time.Hour * Float64 cctx "persist-hours");
              events.GCPeriod := 5 * time.Minute;
              events.MaxBytes := uint64 (Int64 cctx "persist-bytes");
            |} in
            let conf := {|
              splitter.UpstreamHost := upstreamHost;
              splitter.CursorFile := String cctx "cursor-file";
              splitter.PebbleOptions := Some ppopts;
            |} in
            emit (NewSplitter conf) ;;;
            ret (splitter_NewSplitter w conf)
          else
            let conf := {|
              splitter.UpstreamHost := upstreamHost;
              splitter.CursorFile := String cctx "cursor-file";
              splitter.PebbleOptions := None;
            |} in
            emit (NewSplitter conf) ;;;
            ret (splitter_NewSplitter w conf)) ;;
  match err with
  | Some _ => log_Fatal
  | None =>
      emit (StartMetrics (String cctx "metrics-listen")) ;;;
      emit (Start (String cctx "api-listen")) ;;;
      match after_startup w with
      | Signal =>
          emit Shutdown ;;;
          log_if_error (spl_Shutdown w) ;;;
          ret None
      | StartReturned err =>
          log_if_error err ;;;
          emit Shutdown ;;;
          log_if_error (spl_Shutdown w) ;;;
          ret None
      | StartMetricsFailed _ => log_Fatal
      | Quiet => stop Waiting
      end
  end.

(** [app.Run]: a command line that does not parse is an error, and the
    action does not run. *)
Definition app_Run (w : World) : Proc (option error) :=
  match parse_args w with
  | inl err => ret (Some err)
  | inr given => Splitter w (newContext app_Flags given)
  end.

Definition run (w : World) : Proc unit :=
  err <- app_Run w ;;
  match err with
  | Some _ => log_Fatal
  | None => ret tt
  end.

(** [main]: when [run] returns, the process exits with code 0. *)
Definition main (w : World) : list Call * Halt :=
  match run w with
  | (tr, inl h) => (tr, h)
  | (tr, inr _) => (tr, Exited 0)
  end.


End rainbow.

(** * [automod/engine/effects.go] *)

Module engine.

Record CounterRef : Type := {
  Name : string;
  Val : string;
  Period : option string;
}.

Record CounterDistinctRef : Type := {
  DistinctName : string;
  Bucket : string;
  DistinctVal : string;
}.

(** [ModReport], by the two fields the methods below set. *)
Record ModReport : Type := {
  ReasonType : string;
  Comment : string;
}.

(** The container of the side effects of rule execution. The mutex [mu]
    is left out: the methods are taken one at a time. *)
Record Effects : Type := {
  CounterIncrements : list CounterRef;
  CounterDistinctIncrements : list CounterDistinctRef;
  AccountLabels : list string;
  AccountFlags : list string;
  AccountReports : list ModReport;
  AccountTakedown : bool;
  AccountEscalate : bool;
  AccountAcknowledge : bool;
  RecordLabels : list string;
  RecordFlags : list string;
  RecordReports : list ModReport;
  RecordTakedown : bool;
  BlobTakedowns : list string;
  RejectEvent : bool;
  NotifyServices : list string;
}.

(** The zero value [Effects{}]. *)
Definition zero : Effects := {|
  CounterIncrements := [];
  CounterDistinctIncrements := [];
  AccountLabels := [];
  AccountFlags := [];
  AccountReports := [];
  AccountTakedown := false;
  AccountEscalate := false;
  AccountAcknowledge := false;
  RecordLabels := [];
  RecordFlags := [];
  RecordReports := [];
  RecordTakedown := false;
  BlobTakedowns := [];
  RejectEvent := false;
  NotifyServices := [];
|}.

(** The loop [for _, v := range l { if v == val { return } }]: [true]
    when it returns from the method. *)
Fixpoint found (l : list string) (val : string) : bool :=
  match l with
  | [] => false
  | v :: rest => if String.eqb v val then true else found rest val
  end.

(** The same loop over reports, which compares the reason type. *)
Fixpoint found_reason (l : list ModReport) (reason : string) : bool :=
  match l with
  | [] => false
  | v :: rest => if String.eqb (ReasonType v) reason then true else found_reason rest reason
  end.

Definition Increment (name val : string) (e : Effects) : Effects :=
  {| CounterIncrements :=
       CounterIncrements e ++ [{| Name := name; Val := val; Period := None |}];
     CounterDistinctIncrements := CounterDistinctIncrements e;
     AccountLabels := AccountLabels e;
     AccountFlags := AccountFlags e;
     AccountReports := AccountReports e;
     AccountTakedown := AccountTakedown e;
     AccountEscalate := AccountEscalate e;
     AccountAcknowledge := AccountAcknowledge e;
     RecordLabels := RecordLabels e;
     RecordFlags := RecordFlags e;
     RecordReports := RecordReports e;
     RecordTakedown := RecordTakedown e;
     BlobTakedowns := BlobTakedowns e;
     RejectEvent := RejectEvent e;
     NotifyServices := NotifyServices e |}.

Definition IncrementPeriod (name val period : string) (e : Effects) : Effects :=
  {| CounterIncrements :=
       CounterIncrements e ++ [{| Name := name; Val := val; Period := Some period |}];
     CounterDistinctIncrements := CounterDistinctIncrements e;
     AccountLabels := AccountLabels e;
     AccountFlags := AccountFlags e;
     AccountReports := AccountReports e;
     AccountTakedown := AccountTakedown e;
     AccountEscalate := AccountEscalate e;
     AccountAcknowledge := AccountAcknowledge e;
     RecordLabels := RecordLabels e;
     RecordFlags := RecordFlags e;
     RecordReports := RecordReports e;
     RecordTakedown := RecordTakedown e;
     BlobTakedowns := BlobTakedowns e;
     RejectEvent := RejectEvent e;
     NotifyServices := NotifyServices e |}.

Definition IncrementDistinct (name bucket val : string) (e : Effects) : Effects :=
  {| CounterIncrements := CounterIncrements e;
     CounterDistinctIncrements :=
       CounterDistinctIncrements e
         ++ [{| DistinctName := name; Bucket := bucket; DistinctVal := val |}];
     AccountLabels := AccountLabels e;
     AccountFlags := AccountFlags e;
     AccountReports := AccountReports e;
     AccountTakedown := AccountTakedown e;
     AccountEscalate := AccountEscalate e;
     AccountAcknowledge := AccountAcknowledge e;
     RecordLabels := RecordLabels e;
     RecordFlags := RecordFlags e;
     RecordReports := RecordReports e;
     RecordTakedown := RecordTakedown e;
     BlobTakedowns := BlobTakedowns e;
     RejectEvent := RejectEvent e;
     NotifyServices := NotifyServices e |}.

Definition AddAccountLabel (val : string) (e : Effects) : Effects :=
  if found (AccountLabels e) val then e
  else
    {| CounterIncrements := CounterIncrements e;
       CounterDistinctIncrements := CounterDistinctIncrements e;
       AccountLabels := AccountLabels e ++ [val];
       AccountFlags := AccountFlags e;
       AccountReports := AccountReports e;
       AccountTakedown := AccountTakedown e;
       AccountEscalate := AccountEscalate e;
       AccountAcknowledge := AccountAcknowledge e;
       RecordLabels := RecordLabels e;
       RecordFlags := RecordFlags e;
       RecordReports := RecordReports e;
       RecordTakedown := RecordTakedown e;
       BlobTakedowns := BlobTakedowns e;
       RejectEvent := RejectEvent e;
       NotifyServices := NotifyServices e |}.

Definition AddAccountFlag (val : string) (e : Effects) : Effects :=
  if found (AccountFlags e) val then e
  else
    {| CounterIncrements := CounterIncrements e;
       CounterDistinctIncrements := CounterDistinctIncrements e;
       AccountLabels := AccountLabels e;
       AccountFlags := AccountFlags e ++ [val];
       AccountReports := AccountReports e;
       AccountTakedown := AccountTakedown e;
       AccountEscalate := AccountEscalate e;
       AccountAcknowledge := AccountAcknowledge e;
       RecordLabels := RecordLabels e;
       RecordFlags := RecordFlags e;
       RecordReports := RecordReports e;
       RecordTakedown := RecordTakedown e;
       BlobTakedowns := BlobTakedowns e;
       RejectEvent := RejectEvent e;
       NotifyServices := NotifyServices e |}.

(** [if comment == "" { comment = "(reporting without comment)" }] *)
Definition comment_or_default (comment : string) : string :=
  if String.eqb comment "" then "(reporting without comment)" else comment.

Definition ReportAccount (reason comment : string) (e : Effects) : Effects :=
  let comment := comment_or_default comment in
  if found_reason (AccountReports e) reason then e
  else
    {| CounterIncrements := CounterIncrements e;
       CounterDistinctIncrements := CounterDistinctIncrements e;
       AccountLabels := AccountLabels e;
       AccountFlags := AccountFlags e;
       AccountReports :=
         AccountReports e ++ [{| ReasonType := reason; Comment := comment |}];
       AccountTakedown := AccountTakedown e;
       AccountEscalate := AccountEscalate e;
       AccountAcknowledge := AccountAcknowledge e;
       RecordLabels := RecordLabels e;
       RecordFlags := RecordFlags e;
       RecordReports := RecordReports e;
       RecordTakedown := RecordTakedown e;
       BlobTakedowns := BlobTakedowns e;
       RejectEvent := RejectEvent e;
       NotifyServices := NotifyServices e |}.

Definition TakedownAccount (e : Effects) : Effects :=
  {| CounterIncrements := CounterIncrements e;
     CounterDistinctIncrements := CounterDistinctIncrements e;
     AccountLabels := AccountLabels e;
     AccountFlags := AccountFlags e;
     AccountReports := AccountReports e;
     AccountTakedown := true;
     AccountEscalate := AccountEscalate e;
     AccountAcknowledge := AccountAcknowledge e;
     RecordLabels := RecordLabels e;
     RecordFlags := RecordFlags e;
     RecordReports := RecordReports e;
     RecordTakedown := RecordTakedown e;
     BlobTakedowns := BlobTakedowns e;
     RejectEvent := RejectEvent e;
     NotifyServices := NotifyServices e |}.

Definition EscalateAccount (e : Effects) : Effects :=
  {| CounterIncrements := CounterIncrements e;
     CounterDistinctIncrements := CounterDistinctIncrements e;
     AccountLabels := AccountLabels e;
     AccountFlags := AccountFlags e;
     AccountReports := AccountReports e;
     AccountTakedown := AccountTakedown e;
     AccountEscalate := true;
     AccountAcknowledge := AccountAcknowledge e;
     RecordLabels := RecordLabels e;
     RecordFlags := RecordFlags e;
     RecordReports := RecordReports e;
     RecordTakedown := RecordTakedown e;
     BlobTakedowns := BlobTakedowns e;
     RejectEvent := RejectEvent e;
     NotifyServices := NotifyServices e |}.

Definition AcknowledgeAccount (e : Effects) : Effects :=
  {| CounterIncrements := CounterIncrements e;
     CounterDistinctIncrements := CounterDistinctIncrements e;
     AccountLabels := AccountLabels e;
     AccountFlags := AccountFlags e;
     AccountReports := AccountReports e;
     AccountTakedown := AccountTakedown e;
     AccountEscalate := AccountEscalate e;
     AccountAcknowledge := true;
     RecordLabels := RecordLabels e;
     RecordFlags := RecordFlags e;
     RecordReports := RecordReports e;
     RecordTakedown := RecordTakedown e;
     BlobTakedowns := BlobTakedowns e;
     RejectEvent := RejectEvent e;
     NotifyServices := NotifyServices e |}.

Definition AddRecordLabel (val : string) (e : Effects) : Effects :=
  if found (RecordLabels e) val then e
  else
    {| CounterIncrements := CounterIncrements e;
       CounterDistinctIncrements := CounterDistinctIncrements e;
       AccountLabels := AccountLabels e;
       AccountFlags := AccountFlags e;
       AccountReports := AccountReports e;
       AccountTakedown := AccountTakedown e;
       AccountEscalate := AccountEscalate e;
       AccountAcknowledge := AccountAcknowledge e;
       RecordLabels := RecordLabels e ++ [val];
       RecordFlags := RecordFlags e;
       RecordReports := RecordReports e;
       RecordTakedown := RecordTakedown e;
       BlobTakedowns := BlobTakedowns e;
       RejectEvent := RejectEvent e;
       NotifyServices := NotifyServices e |}.

Definition AddRecordFlag (val : string) (e : Effects) : Effects :=
  if found (RecordFlags e) val then e
  else
    {| CounterIncrements := CounterIncrements e;
       CounterDistinctIncrements := CounterDistinctIncrements e;
       AccountLabels := AccountLabels e;
       AccountFlags := AccountFlags e;
       AccountReports := AccountReports e;
       AccountTakedown := AccountTakedown e;
       AccountEscalate := AccountEscalate e;
       AccountAcknowledge := AccountAcknowledge e;
       RecordLabels := RecordLabels e;
       RecordFlags := RecordFlags e ++ [val];
       RecordReports := RecordReports e;
       RecordTakedown := RecordTakedown e;
       BlobTakedowns := BlobTakedowns e;
       RejectEvent := RejectEvent e;
       NotifyServices := NotifyServices e |}.

Definition ReportRecord (reason comment : string) (e : Effects) : Effects :=
  let comment := comment_or_default comment in
  if found_reason (RecordReports e) reason then e
  else
    {| CounterIncrements := CounterIncrements e;
       CounterDistinctIncrements := CounterDistinctIncrements e;
       AccountLabels := AccountLabels e;
       AccountFlags := AccountFlags e;
       AccountReports := AccountReports e;
       AccountTakedown := AccountTakedown e;
       AccountEscalate := AccountEscalate e;
       AccountAcknowledge := AccountAcknowledge e;
       RecordLabels := RecordLabels e;
       RecordFlags := RecordFlags e;
       RecordReports :=
         RecordReports e ++ [{| ReasonType := reason; Comment := comment |}];
       RecordTakedown := RecordTakedown e;
       BlobTakedowns := BlobTakedowns e;
       RejectEvent := RejectEvent e;
       NotifyServices := NotifyServices e |}.

Definition TakedownRecord (e : Effects) : Effects :=
  {| CounterIncrements := CounterIncrements e;
     CounterDistinctIncrements := CounterDistinctIncrements e;
     AccountLabels := AccountLabels e;
     AccountFlags := AccountFlags e;
     AccountReports := AccountReports e;
     AccountTakedown := AccountTakedown e;
     AccountEscalate := AccountEscalate e;
     AccountAcknowledge := AccountAcknowledge e;
     RecordLabels := RecordLabels e;
     RecordFlags := RecordFlags e;
     RecordReports := RecordReports e;
     RecordTakedown := true;
     BlobTakedowns := BlobTakedowns e;
     RejectEvent := RejectEvent e;
     NotifyServices := NotifyServices e |}.

Definition TakedownBlob (cid : string) (e : Effects) : Effects :=
  if found (BlobTakedowns e) cid then e
  else
    {| CounterIncrements := CounterIncrements e;
       CounterDistinctIncrements := CounterDistinctIncrements e;
       AccountLabels := AccountLabels e;
       AccountFlags := AccountFlags e;
       AccountReports := AccountReports e;
       AccountTakedown := AccountTakedown e;
       AccountEscalate := AccountEscalate e;
       AccountAcknowledge := AccountAcknowledge e;
       RecordLabels := RecordLabels e;
       RecordFlags := RecordFlags e;
       RecordReports := RecordReports e;
       RecordTakedown := RecordTakedown e;
       BlobTakedowns := BlobTakedowns e ++ [cid];
       RejectEvent := RejectEvent e;
       NotifyServices := NotifyServices e |}.

Definition Notify (srv : string) (e : Effects) : Effects :=
  if found (NotifyServices e) srv then e
  else
    {| CounterIncrements := CounterIncrements e;
       CounterDistinctIncrements := CounterDistinctIncrements e;
       AccountLabels := AccountLabels e;
       AccountFlags := AccountFlags e;
       AccountReports := AccountReports e;
       AccountTakedown := AccountTakedown e;
       AccountEscalate := AccountEscalate e;
       AccountAcknowledge := AccountAcknowledge e;
       RecordLabels := RecordLabels e;
       RecordFlags := RecordFlags e;
       RecordReports := RecordReports e;
       RecordTakedown := RecordTakedown e;
       BlobTakedowns := BlobTakedowns e;
       RejectEvent := RejectEvent e;
       NotifyServices := NotifyServices e ++ [srv] |}.

Definition Reject (e : Effects) : Effects :=
  {| CounterIncrements := CounterIncrements e;
     CounterDistinctIncrements := CounterDistinctIncrements e;
     AccountLabels := AccountLabels e;
     AccountFlags := AccountFlags e;
     AccountReports := AccountReports e;
     AccountTakedown := AccountTakedown e;
     AccountEscalate := AccountEscalate e;
     AccountAcknowledge := AccountAcknowledge e;
     RecordLabels := RecordLabels e;
     RecordFlags := RecordFlags e;
     RecordReports := RecordReports e;
     RecordTakedown := RecordTakedown e;
     BlobTakedowns := BlobTakedowns e;
     RejectEvent := true;
     NotifyServices := NotifyServices e |}.

(** A method call on an [Effects], with its arguments. *)
Inductive Method : Type :=
| mIncrement (name val : string)
| mIncrementPeriod (name val period : string)
| mIncrementDistinct (name bucket val : string)
| mAddAccountLabel (val : string)
| mAddAccountFlag (val : string)
| mReportAccount (reason comment : string)
| mTakedownAccount
| mEscalateAccount
| mAcknowledgeAccount
| mAddRecordLabel (val : string)
| mAddRecordFlag (val : string)
| mReportRecord (reason comment : string)
| mTakedownRecord
| mTakedownBlob (cid : string)
| mNotify (srv : string)
| mReject.

Definition call (e : Effects) (m : Method) : Effects :=
  match m with
  | mIncrement name val => Increment name val e
  | mIncrementPeriod name val period => IncrementPeriod name val period e
  | mIncrementDistinct name bucket val => IncrementDistinct name bucket val e
  | mAddAccountLabel val => AddAccountLabel val e
  | mAddAccountFlag val => AddAccountFlag val e
  | mReportAccount reason comment => ReportAccount reason comment e
  | mTakedownAccount => TakedownAccount e
  | mEscalateAccount => EscalateAccount e
  | mAcknowledgeAccount => AcknowledgeAccount e
  | mAddRecordLabel val => AddRecordLabel val e
  | mAddRecordFlag val => AddRecordFlag val e
  | mReportRecord reason comment => ReportRecord reason comment e
  | mTakedownRecord => TakedownRecord e
  | mTakedownBlob cid => TakedownBlob cid e
  | mNotify srv => Notify srv e
  | mReject => Reject e
  end.

(** A sequence of calls, first to last. *)
Definition calls_on (e : Effects) (ms : list Method) : Effects :=
  fold_left call ms e.

End engine.

(** * Package [strconv] *)

Module strconv.

Definition ErrSyntax : string := "invalid syntax".
Definition ErrRange : string := "value out of range".

Definition syntaxError (fn str : string) : error := NumError fn str ErrSyntax.
Definition rangeError (fn str : string) : error := NumError fn str ErrRange.

(** The value of a decimal digit. *)
Definition digit (ch : Ascii.ascii) : option Z :=
  let n := Z.of_N (Ascii.N_of_ascii ch) in
  if (48 <=? n) && (n <=? 57) then Some (n - 48) else None.

(** The loop [n = n*10 + int(ch)] over the bytes of the string; [None]
    when a byte is not a digit. *)
Fixpoint digits (s : string) (n : Z) : option Z :=
  match s with
  | EmptyString => Some n
  | String.String ch rest =>
      match digit ch with
      | Some d => digits rest (n * 10 + d)
      | None => None
      end
  end.

(** [Atoi]: an optional sign and at least one decimal digit, within the
    range of a 64-bit [int]. The result is the pair Go returns. *)
Definition Atoi (s : string) : Z * option error :=
  let fnAtoi := "Atoi" in
  match s with
  | EmptyString => (0, Some (syntaxError fnAtoi s))
  | String.String ch rest =>
      let neg := Ascii.eqb ch "-"%char in
      let body := if neg || Ascii.eqb ch "+"%char then rest else s in
      match body with
      | EmptyString => (0, Some (syntaxError fnAtoi s))
      | _ =>
          match digits body 0 with
          | None => (0, Some (syntaxError fnAtoi s))
          | Some un =>
              if negb neg && (int64_max <? un) then (int64_max, Some (rangeError fnAtoi s))
              else if neg && (- int64_min <? un) then (int64_min, Some (rangeError fnAtoi s))
              else (if neg then - un else un, None)
          end
      end
  end.

(** [ParseBool] accepts 1, t, T, TRUE, true, True, 0, f, F, FALSE, false
    and False. *)
Definition ParseBool (str : string) : bool * option error :=
  if existsb (String.eqb str) ["1"; "t"; "T"; "true"; "TRUE"; "True"]
  then (true, None)
  else if existsb (String.eqb str) ["0"; "f"; "F"; "false"; "FALSE"; "False"]
  then (false, None)
  else (false, Some (syntaxError "ParseBool" str)).

End strconv.

(** * [pds/stubs.go]: the GET handlers with a [limit] parameter *)

Module pds.

(** [url.Values] and its [Get]: the first value of the key, or the empty
    string when the key has no value. *)
Abbreviation Values := (gmap string (list string)).

Definition Values_Get (v : Values) (key : string) : string :=
  match v !! key with
  | Some (x :: _) => x
  | _ => ""
  end.

(** An [echo.Context], by the query of its request. *)
Record Context : Type := {
  QueryParams : Values;
}.

Definition QueryParam (c : Context) (name : string) : string :=
  Values_Get (QueryParams c) name.

(** [c.QueryParams()[key]] *)
Definition QueryParams_at (c : Context) (key : string) : list string :=
  match QueryParams c !! key with
  | Some vs => vs
  | None => []
  end.

(** The methods of the server the handlers call, with their arguments. *)
Inductive Operation : Type :=
| handleComAtprotoAdminGetInviteCodes (cursor : string) (limit : Z) (sort : string)
| handleComAtprotoLabelQueryLabels
    (cursor : string) (limit : Z) (sources uriPatterns : list string)
| handleComAtprotoRepoListRecords
    (collection cursor : string) (limit : Z) (repo : string)
    (reverse : option bool) (rkeyEnd rkeyStart : string)
| handleComAtprotoSyncListBlobs (cursor did : string) (limit : Z) (since : string)
| handleComAtprotoSyncListRepos (cursor : string) (limit : Z)
| handleComAtprotoTempFetchLabels (limit : Z) (since : option Z).

Inductive Event (Out : Type) : Type :=
| Handled (op : Operation)
| WroteJSON (code : Z) (out : Out).

Arguments Handled {Out} op.
Arguments WroteJSON {Out} code out.

Section Server.

Local Open Scope eff_scope.

(** What the operations return. *)
Variable Out : Type.

(** The server's methods, in another file of the package. *)
Variable handle : Operation -> error + Out.

(** What writing the response returns. *)
Variable write_JSON : Z -> Out -> option error.

(** A handler returns [nil] or an error. *)
Definition Handler : Type := Eff (Event Out) error unit.

Definition invoke (op : Operation) : Eff (Event Out) error Out :=
  ([Handled op], handle op).

(** [return c.JSON(code, out)] *)
Definition JSON (code : Z) (out : Out) : Handler :=
  ([WroteJSON code out],
   match write_JSON code out with
   | Some err => inl err
   | None => inr tt
   end).

(** [v, err := f(p); if err != nil { return err }] *)
Definition or_return {A : Type} (r : A * option error) : Eff (Event Out) error A :=
  match r with
  | (_, Some err) => stop err
  | (v, None) => ret v
  end.

Definition HandleComAtprotoAdminGetInviteCodes (c : Context) : Handler :=
  let cursor := QueryParam c "cursor" in
  limit <- (let p := QueryParam c "limit" in
            if decide (p <> "") then or_return (strconv.Atoi p) else ret 100) ;;
  let sort := QueryParam c "sort" in
  out <- invoke (handleComAtprotoAdminGetInviteCodes cursor limit sort) ;;
  JSON 200 out.

Definition HandleComAtprotoLabelQueryLabels (c : Context) : Handler :=
  let cursor := QueryParam c "cursor" in
  limit <- (let p := QueryParam c "limit" in
            if decide (p <> "") then or_return (strconv.Atoi p) else ret 50) ;;
  let sources := QueryParams_at c "sources" in
  let uriPatterns := QueryParams_at c "uriPatterns" in
  out <- invoke (handleComAtprotoLabelQueryLabels cursor limit sources uriPatterns) ;;
  JSON 200 out.

Definition HandleComAtprotoRepoListRecords (c : Context) : Handler :=
  let collection := QueryParam c "collection" in
  let cursor := QueryParam c "cursor" in
  limit <- (let p := QueryParam c "limit" in
            if decide (p <> "") then or_return (strconv.Atoi p) else ret 50) ;;
  let repo := QueryParam c "repo" in
  reverse <- (let p := QueryParam c "reverse" in
              if decide (p <> "")
              then reverse_val <- or_return (strconv.ParseBool p) ;; ret (Some reverse_val)
              else ret None) ;;
  let rkeyEnd := QueryParam c "rkeyEnd" in
  let rkeyStart := QueryParam c "rkeyStart" in
  out <- invoke (handleComAtprotoRepoListRecords
                   collection cursor limit repo reverse rkeyEnd rkeyStart) ;;
  JSON 200 out.

Definition HandleComAtprotoSyncListBlobs (c : Context) : Handler :=
  let cursor := QueryParam c "cursor" in
  let did := QueryParam c "did" in
  limit <- (let p := QueryParam c "limit" in
            if decide (p <> "") then or_return (strconv.Atoi p) else ret 500) ;;
  let since := QueryParam c "since" in
  out <- invoke (handleComAtprotoSyncListBlobs cursor did limit since) ;;
  JSON 200 out.

Definition HandleComAtprotoSyncListRepos (c : Context) : Handler :=
  let cursor := QueryParam c "cursor" in
  limit <- (let p := QueryParam c "limit" in
            if decide (p <> "") then or_return (strconv.Atoi p) else ret 500) ;;
  out <- invoke (handleComAtprotoSyncListRepos cursor limit) ;;
  JSON 200 out.

Definition HandleComAtprotoTempFetchLabels (c : Context) : Handler :=
  limit <- (let p := QueryParam c "limit" in
            if decide (p <> "") then or_return (strconv.Atoi p) else ret 50) ;;
  since <- (let p := QueryParam c "since" in
            if decide (p <> "")
            then sinceVal <- or_return (strconv.Atoi p) ;; ret (Some sinceVal)
            else ret None) ;;
  out <- invoke (handleComAtprotoTempFetchLabels limit since) ;;
  JSON 200 out.

End Server.

End pds.

(** * [pds/stubs.go]: the invite codes of an account and the handlers
      that stream *)

Module pds_stubs.

(** The methods of the server these handlers call. *)
Inductive Operation : Type :=
| handleComAtprotoServerGetAccountInviteCodes (createAvailable includeUsed : bool)
| handleComAtprotoSyncGetBlob (cid did : string)
| handleComAtprotoSyncGetBlocks (cids : list string) (did : string)
| handleComAtprotoSyncGetCheckout (did : string)
| handleComAtprotoSyncGetRecord (collection commit did rkey : string)
| handleComAtprotoSyncGetRepo (did since : string).

Inductive Event (Out : Type) : Type :=
| Handled (op : Operation)
| WroteJSON (code : Z) (out : Out)
| WroteStream (code : Z) (contentType : string) (out : Out).

Arguments Handled {Out} op.
Arguments WroteJSON {Out} code out.
Arguments WroteStream {Out} code contentType out.

Section Server.

Local Open Scope eff_scope.

(** What the operations return: a value to encode, or a reader. *)
Variable Out : Type.

Variable handle : Operation -> error + Out.

Variable write_JSON : Z -> Out -> option error.

Variable write_Stream : Z -> string -> Out -> option error.

Definition Handler : Type := Eff (Event Out) error unit.

Definition invoke (op : Operation) : Eff (Event Out) error Out :=
  ([Handled op], handle op).

(** [return c.JSON(code, out)] *)
Definition JSON (code : Z) (out : Out) : Handler :=
  ([WroteJSON code out],
   match write_JSON code out with
   | Some err => inl err
   | None => inr tt
   end).

(** [return c.Stream(code, contentType, out)] *)
Definition Stream (code : Z) (contentType : string) (out : Out) : Handler :=
  ([WroteStream code contentType out],
   match write_Stream code contentType out with
   | Some err => inl err
   | None => inr tt
   end).

(** [v, err := f(p); if err != nil { return err }] *)
Definition or_return {A : Type} (r : A * option error) : Eff (Event Out) error A :=
  match r with
  | (_, Some err) => stop err
  | (v, None) => ret v
  end.

Definition HandleComAtprotoServerGetAccountInviteCodes (c : pds.Context) : Handler :=
  createAvailable <- (let p := pds.QueryParam c "createAvailable" in
                      if decide (p <> "") then or_return (strconv.ParseBool p)
                      else ret true) ;;
  includeUsed <- (let p := pds.QueryParam c "includeUsed" in
                  if decide (p <> "") then or_return (strconv.ParseBool p)
                  else ret true) ;;
  out <- invoke (handleComAtprotoServerGetAccountInviteCodes createAvailable includeUsed) ;;
  JSON 200 out.

Definition HandleComAtprotoSyncGetBlob (c : pds.Context) : Handler :=
  let cid := pds.QueryParam c "cid" in
  let did := pds.QueryParam c "did" in
  out <- invoke (handleComAtprotoSyncGetBlob cid did) ;;
  Stream 200 "application/octet-stream" out.

Definition HandleComAtprotoSyncGetBlocks (c : pds.Context) : Handler :=
  let cids := pds.QueryParams_at c "cids" in
  let did := pds.QueryParam c "did" in
  out <- invoke (handleComAtprotoSyncGetBlocks cids did) ;;
  Stream 200 "application/vnd.ipld.car" out.

Definition HandleComAtprotoSyncGetCheckout (c : pds.Context) : Handler :=
  let did := pds.QueryParam c "did" in
  out <- invoke (handleComAtprotoSyncGetCheckout did) ;;
  Stream 200 "application/vnd.ipld.car" out.

Definition HandleComAtprotoSyncGetRecord (c : pds.Context) : Handler :=
  let collection := pds.QueryParam c "collection" in
  let commit := pds.QueryParam c "commit" in
  let did := pds.QueryParam c "did" in
  let rkey := pds.QueryParam c "rkey" in
  out <- invoke (handleComAtprotoSyncGetRecord collection commit did rkey) ;;
  Stream 200 "application/vnd.ipld.car" out.

Definition HandleComAtprotoSyncGetRepo (c : pds.Context) : Handler :=
  let did := pds.QueryParam c "did" in
  let since := pds.QueryParam c "since" in
  out <- invoke (handleComAtprotoSyncGetRepo did since) ;;
  Stream 200 "application/vnd.ipld.car" out.

End Server.

End pds_stubs.

(** * Package [xrpc]: what a request is made of *)

Module xrpc.

Inductive XRPCRequestType : Type :=
| Query
| Procedure.

(** The values the parameter maps of the generated clients hold. *)
Inductive Param : Type :=
| ParamString (s : string)
| ParamInt64 (n : Z).

(** The arguments of [Client.Do], but the context and the place of the
    output. A body, when there is one, is taken as encoded. *)
Record Request : Type := {
  kind : XRPCRequestType;
  inpenc : string;
  method : string;
  params : gmap string Param;
  bodyobj : option string;
}.

End xrpc.

(** * [api/bsky/graphgetListBlocks.go] *)

Module bsky.

(** [GraphGetListBlocks_Output], over the type of the list views. *)
Record GraphGetListBlocks_Output (ListView : Type) : Type := {
  Cursor : option string;
  Lists : list ListView;
}.

Section Client.

(** [GraphDefs_ListView], which another file defines. *)
Variable ListView : Type.

(** [c.Do]: an error, or the output it decoded. *)
Variable Do : xrpc.Request -> error + GraphGetListBlocks_Output ListView.

(** The result is the requests made and the pair Go returns. *)
Definition GraphGetListBlocks (cursor : string) (limit : Z)
  : list xrpc.Request * (option (GraphGetListBlocks_Output ListView) * option error) :=
  let params : gmap string xrpc.Param :=
    <["cursor" := xrpc.ParamString cursor]>
      (<["limit" := xrpc.ParamInt64 limit]> ∅) in
  let req := {|
    xrpc.kind := xrpc.Query;
    xrpc.inpenc := "";
    xrpc.method := "app.bsky.graph.getListBlocks";
    xrpc.params := params;
    xrpc.bodyobj := None;
  |} in
  match Do req with
  | inl err => ([req], (None, Some err))
  | inr out => ([req], (Some out, None))
  end.

End Client.

End bsky.

(** * The relay engine, from the specification *)

(** The cache, the subscribers and the dispatcher live in the packages
    [splitter] and [events], which [main.go] only calls. *)

Module relay.

(** Modelled from the spec: the three frame types of section 6 (the
    envelope is declared in the events package). *)
Inductive Kind : Type :=
| Message
| Info
| Error.

(** Modelled from the spec: the frame of section 3 (the envelope type is
    declared in the events package), [{ kind, seq (for Message only),
    size, body }]. *)
Record Frame : Type := {
  kind : Kind;
  seq : Z;
  size : Z;
  body : list Byte.byte;
}.

(** Modelled from the spec: the cache entry of section 3 (the pebble
    persister of the events package), [(seq, received_at, size,
    frame_bytes)]. *)
Record Entry : Type := {
  entry_seq : Z;
  received_at : Z;
  entry_size : Z;
  frame_bytes : list Byte.byte;
}.

(** Modelled from the spec: the configuration of the engine (the options
    of the splitter and events packages): retention, queue bound and the
    tolerance for cursors ahead of the stream. *)
Record Config : Type := {
  persist_duration : Z;
  max_bytes : Z;
  queue_capacity : nat;
  small_tolerance : Z;
}.

(** Modelled from the spec: the ordered index of section 3 (events
    package): the entries from the lowest [seq] to the highest. *)
Definition Cache : Type := list Entry.

(** The keys of the cache, in order. *)
Definition seqs_of (cache : Cache) : list Z := map entry_seq cache.

(** Modelled from the spec: [sum(size)] of section 3 (events package). *)
Definition total_size (cache : Cache) : Z :=
  fold_right (fun e acc => entry_size e + acc) 0 cache.

(** Modelled from the spec: [bounds()] of section 4.1 (events package),
    [(seq_lo, seq_hi)] or empty. *)
Definition bounds (cache : Cache) : option (Z * Z) :=
  match cache with
  | [] => None
  | e :: _ => Some (entry_seq e, entry_seq (List.last cache e))
  end.

(** Modelled from the spec: the results of [append] in section 4.1
    (events package). *)
Inductive AppendResult : Type :=
| Ok (cache : Cache)
| DuplicateSeq
| NonMonotonic.

(** Modelled from the spec: [append] of section 4.1 (events package); it
    requires [seq > seq_hi], or an empty cache. *)
Definition append (cache : Cache) (s : Z) (bytes : list Byte.byte)
    (at_time sz : Z) : AppendResult :=
  let e := {| entry_seq := s; received_at := at_time;
              entry_size := sz; frame_bytes := bytes |} in
  match bounds cache with
  | None => Ok [e]
  | Some (_, hi) =>
      if hi <? s then Ok (cache ++ [e])
      else if hi =? s then DuplicateSeq
      else NonMonotonic
  end.

(** Modelled from the spec: [scan_from(cursor)] of section 4.1 (events
    package): the entries with [seq >= cursor], ascending, as a snapshot
    of the cache at the call. *)
Definition scan_from (cache : Cache) (cursor : Z) : list Entry :=
  List.filter (fun e => cursor <=? entry_seq e) cache.

(** Modelled from the spec: time eviction, step 1 of the eviction policy
    of section 4.1 (events package): while [seq_lo] exists and
    [now - received_at(seq_lo) > persist_duration], delete [seq_lo]. *)
Fixpoint time_evict (now pd : Z) (cache : Cache) : Cache :=
  match cache with
  | [] => []
  | e :: rest =>
      if pd <? now - received_at e then time_evict now pd rest else cache
  end.

(** Modelled from the spec: size eviction, step 2 of the eviction policy
    of section 4.1 (events package): while [sum(size) > max_bytes],
    delete [seq_lo]. *)
Fixpoint size_evict (mb : Z) (cache : Cache) : Cache :=
  match cache with
  | [] => []
  | e :: rest =>
      if mb <? total_size cache then size_evict mb rest else cache
  end.

(** Modelled from the spec: one run of the background task of section
    4.1 (events package): time eviction, then size eviction only if
    [max_bytes > 0]. *)
Definition gc (cfg : Config) (now : Z) (cache : Cache) : Cache :=
  let cache := time_evict now (persist_duration cfg) cache in
  if 0 <? max_bytes cfg then size_evict (max_bytes cfg) cache else cache.

(** Modelled from the spec: the size bound of section 3 (events
    package), [sum(size) <= max_bytes] whenever [max_bytes > 0], measured
    after each admission. *)
Definition after_admission (cfg : Config) (cache : Cache) : Cache :=
  if 0 <? max_bytes cfg then size_evict (max_bytes cfg) cache else cache.

(** Modelled from the spec: the phases of a subscriber in section 3
    (splitter package). *)
Inductive Phase : Type :=
| Replay
| Live
| Closing.

(** Modelled from the spec: why a subscriber is closed, from the error
    kinds of section 7 and the cancellation of section 4.4 (splitter
    package). *)
Inductive Reason : Type :=
| OutdatedCursor
| FutureCursor
| ConsumerTooSlow
| ClientDisconnect.

(** Modelled from the spec: the subscriber state of section 3 (splitter
    package). [scan] is what is left of the cache scan opened at attach
    time; [outbound_queue] is the bounded queue the dispatcher feeds, the
    staging buffer while the replay lasts; [delivered] records the frames
    written to the connection, oldest first. *)
Record Subscriber : Type := {
  requested_cursor : option Z;
  phase : Phase;
  last_sent_seq : option Z;
  scan : list Entry;
  outbound_queue : list Frame;
  disconnect_reason : option Reason;
  delivered : list Frame;
}.

(** Modelled from the spec: the frame a cache entry is replayed as
    (section 4.1, events package: the scan yields [(seq, frame_bytes)]). *)
Definition frame_of (e : Entry) : Frame :=
  {| kind := Message; seq := entry_seq e; size := entry_size e; body := frame_bytes e |}.

(** Modelled from the spec: an Info or Error frame the engine makes
    itself (section 4.4, splitter package), named by its text. *)
Definition notice (k : Kind) (name : string) : Frame :=
  let bytes := String.list_byte_of_string name in
  {| kind := k; seq := 0; size := Z.of_nat (length bytes); body := bytes |}.

(** Modelled from the spec: writing one frame to the connection
    (section 4.4, splitter package); each delivered Message advances
    [last_sent_seq]. *)
Definition deliver (s : Subscriber) (f : Frame) : Subscriber :=
  {| requested_cursor := requested_cursor s;
     phase := phase s;
     last_sent_seq :=
       match kind f with
       | Message => Some (seq f)
       | _ => last_sent_seq s
       end;
     scan := scan s;
     outbound_queue := outbound_queue s;
     disconnect_reason := disconnect_reason s;
     delivered := delivered s ++ [f] |}.

(** Modelled from the spec: closing a subscriber (section 4.4, splitter
    package); a closed subscriber is off the registry: it is fed and
    written no more. *)
Definition close (s : Subscriber) (why : Reason) : Subscriber :=
  {| requested_cursor := requested_cursor s;
     phase := Closing;
     last_sent_seq := last_sent_seq s;
     scan := [];
     outbound_queue := [];
     disconnect_reason := Some why;
     delivered := delivered s |}.

(** Modelled from the spec: a subscriber on accept (section 3, splitter
    package), with nothing sent yet. *)
Definition new_subscriber (cursor : option Z) (ph : Phase) (snapshot : list Entry)
  : Subscriber :=
  {| requested_cursor := cursor;
     phase := ph;
     last_sent_seq := None;
     scan := snapshot;
     outbound_queue := [];
     disconnect_reason := None;
     delivered := [] |}.

(** Modelled from the spec: the start of the state machine of section 4.4
    (splitter package). Without a cursor the subscriber is live at once;
    a cursor below [seq_lo] or beyond [latest_known_seq + small_tolerance]
    gets a notice and the connection is closed; otherwise the replay
    starts with a scan of the cache from the cursor, the live feed being
    staged in the queue from the same moment. *)
Definition attach (cfg : Config) (cache : Cache) (latest_known_seq : Z)
    (cursor : option Z) : Subscriber :=
  match cursor with
  | None => new_subscriber None Live []
  | Some c =>
      let outdated :=
        match bounds cache with
        | Some (lo, _) => c <? lo
        | None => false
        end in
      if outdated then
        close (deliver (new_subscriber cursor Replay []) (notice Info "OutdatedCursor"))
              OutdatedCursor
      else if latest_known_seq + small_tolerance cfg <? c then
        close (deliver (new_subscriber cursor Replay []) (notice Error "FutureCursor"))
              FutureCursor
      else new_subscriber cursor Replay (scan_from cache c)
  end.

(** Modelled from the spec: the filter of the merge in section 4.4
    (splitter package): a staged Message is dropped when its [seq] is not
    above [last_sent_seq]. *)
Definition stale (last : option Z) (f : Frame) : bool :=
  match kind f, last with
  | Message, Some l => seq f <=? l
  | _, _ => false
  end.

(** Modelled from the spec: the end of the replay in section 4.4
    (splitter package): drop the staged frames with
    [seq <= last_sent_seq], deliver the rest, then become live. *)
Definition merge (s : Subscriber) : Subscriber :=
  let keep := List.filter (fun f => negb (stale (last_sent_seq s) f)) (outbound_queue s) in
  let s' := {| requested_cursor := requested_cursor s;
               phase := Live;
               last_sent_seq := last_sent_seq s;
               scan := [];
               outbound_queue := [];
               disconnect_reason := disconnect_reason s;
               delivered := delivered s |} in
  fold_left deliver keep s'.

(** Modelled from the spec: one step of the writer of a subscriber
    (section 4.4, splitter package): the next frame of the scan during
    the replay, the merge when the scan is exhausted, the next frame of
    the queue when live. *)
Definition write_step (s : Subscriber) : Subscriber :=
  match phase s with
  | Replay =>
      match scan s with
      | e :: rest =>
          deliver {| requested_cursor := requested_cursor s;
                     phase := Replay;
                     last_sent_seq := last_sent_seq s;
                     scan := rest;
                     outbound_queue := outbound_queue s;
                     disconnect_reason := disconnect_reason s;
                     delivered := delivered s |} (frame_of e)
      | [] => merge s
      end
  | Live =>
      match outbound_queue s with
      | f :: rest =>
          deliver {| requested_cursor := requested_cursor s;
                     phase := Live;
                     last_sent_seq := last_sent_seq s;
                     scan := scan s;
                     outbound_queue := rest;
                     disconnect_reason := disconnect_reason s;
                     delivered := delivered s |} f
      | [] => s
      end
  | Closing => s
  end.

(** Modelled from the spec: the enqueue of the broadcast rule of section
    4.5 (splitter package): it never blocks; a full queue closes the
    subscriber as too slow. *)
Definition enqueue (cfg : Config) (f : Frame) (s : Subscriber) : Subscriber :=
  match phase s with
  | Closing => s
  | _ =>
      if (length (outbound_queue s) <? queue_capacity cfg)%nat then
        {| requested_cursor := requested_cursor s;
           phase := phase s;
           last_sent_seq := last_sent_seq s;
           scan := scan s;
           outbound_queue := outbound_queue s ++ [f];
           disconnect_reason := disconnect_reason s;
           delivered := delivered s |}
      else close s ConsumerTooSlow
  end.

(** Modelled from the spec: the whole engine (sections 4.1 to 4.5): the
    cache, the upstream client's [latest_known_seq], the registry of
    subscribers, and the list of every [seq] admitted so far, oldest
    first, which only the statements below read. *)
Record Engine : Type := {
  cache : Cache;
  latest_known_seq : Z;
  registry : gmap nat Subscriber;
  admitted : list Z;
}.

(** Modelled from the spec: what moves the engine (sections 4.1 to 4.6):
    a frame read from the upstream at some wall time, a connection
    accepted by the frontend with its cursor, one step of the writer of a
    subscriber, a client that disconnects, a tick of the background
    task. *)
Inductive Event : Type :=
| Upstream (f : Frame) (now : Z)
| Accept (id : nat) (cursor : option Z)
| Write (id : nat)
| Disconnect (id : nat)
| Tick (now : Z).

(** Modelled from the spec: frame handling of section 4.2 and the
    broadcast rule of section 4.5 (splitter package). A Message whose
    [seq] is not above [latest_known_seq] is rejected; otherwise it must
    be appended to the cache before it is broadcast and
    [latest_known_seq] advances; Info and Error frames are broadcast
    only. *)
Definition ingest (cfg : Config) (st : Engine) (f : Frame) (now : Z) : Engine :=
  match kind f with
  | Message =>
      if seq f <=? latest_known_seq st then st
      else
        match append (cache st) (seq f) (body f) now (size f) with
        | Ok cache' =>
            {| cache := after_admission cfg cache';
               latest_known_seq := seq f;
               registry := enqueue cfg f <$> registry st;
               admitted := admitted st ++ [seq f] |}
        | DuplicateSeq | NonMonotonic => st
        end
  | Info | Error =>
      {| cache := cache st;
         latest_known_seq := latest_known_seq st;
         registry := enqueue cfg f <$> registry st;
         admitted := admitted st |}
  end.

(** Modelled from the spec: the engine's reaction to one event
    (sections 4.1, 4.4, 4.5 and 4.6, packages splitter and events). An
    accept registers a new subscriber under an unused id. *)
Definition step (cfg : Config) (st : Engine) (ev : Event) : Engine :=
  match ev with
  | Upstream f now => ingest cfg st f now
  | Accept id cursor =>
      match registry st !! id with
      | Some _ => st
      | None =>
          {| cache := cache st;
             latest_known_seq := latest_known_seq st;
             registry :=
               <[id := attach cfg (cache st) (latest_known_seq st) cursor]> (registry st);
             admitted := admitted st |}
      end
  | Write id =>
      {| cache := cache st;
         latest_known_seq := latest_known_seq st;
         registry := alter write_step id (registry st);
         admitted := admitted st |}
  | Disconnect id =>
      {| cache := cache st;
         latest_known_seq := latest_known_seq st;
         registry := alter (fun s => close s ClientDisconnect) id (registry st);
         admitted := admitted st |}
  | Tick now =>
      {| cache := gc cfg now (cache st);
         latest_known_seq := latest_known_seq st;
         registry := registry st;
         admitted := admitted st |}
  end.

(** Modelled from the spec: the engine after start-up (sections 4.2 and
    4.3, splitter package); [resume] is the cursor read from the cursor
    file, 0 when there is none. *)
Definition start (resume : Z) : Engine :=
  {| cache := []; latest_known_seq := resume; registry := ∅; admitted := [] |}.

(** The engine after a list of events, first to last. *)
Definition run (cfg : Config) (st : Engine) (evs : list Event) : Engine :=
  fold_left (step cfg) evs st.

(** The [seq]s of the Message frames of a list of frames, in order. *)
Definition message_seqs (fs : list Frame) : list Z :=
  map seq (List.filter (fun f => match kind f with Message => true | _ => false end) fs).

End relay.

(** * Properties of [cmd/rainbow/main.go] *)

Module rainbow_facts.

Import cli rainbow.

(** A world in which the command line parses and nothing fails during
    start-up. *)
Definition quiet_world (given : gmap string FlagValue) (h : Happening) : World := {|
  parse_args := inr given;
  OTEL_EXPORTER_OTLP_ENDPOINT := "";
  otlptracehttp_New := None;
  splitter_NewSplitter := fun _ => None;
  after_startup := h;
  spl_Shutdown := None;
|}.

(** The trace exporter, when one is asked for, could be created. *)
Definition exporter_ok (w : World) : Prop :=
  OTEL_EXPORTER_OTLP_ENDPOINT w = "" \/ otlptracehttp_New w = None.

(** The options [Splitter] passes when a persistence path is set. *)
Definition ppopts_of (cctx : Context) : events.PebblePersistOptions := {|
  events.DbPath := String cctx "persist-db";
  events.PersistDuration :=
    int64_of_float64 (float64 time.Hour * Float64 cctx "persist-hours");
  events.GCPeriod := 5 * time.Minute;
  events.MaxBytes := uint64 (Int64 cctx "persist-bytes");
|}.

(** One case split on what the world answers, in the order in which
    [Splitter] asks. *)
Ltac step_Splitter :=
  match goal with
  | |- context [decide (?a <> ?b)] =>
      destruct (decide (a <> b)) as [? | ?%dec_stable]
  | |- context [parse_args ?w] => destruct (parse_args w) eqn:?
  | |- context [otlptracehttp_New ?w] => destruct (otlptracehttp_New w) eqn:?
  | |- context [splitter_NewSplitter ?w ?c] => destruct (splitter_NewSplitter w c) eqn:?
  | |- context [after_startup ?w] => destruct (after_startup w) as [| [?|] | ? |] eqn:?
  | |- context [spl_Shutdown ?w] => destruct (spl_Shutdown w) eqn:?
  end; cbn [fst snd app].

Ltac run_Splitter :=
  unfold Splitter, log_if_error, log_Errorw, log_Fatal, bind, emit, ret, stop, calls;
  repeat step_Splitter.

(** A membership in a list of calls that is known, call by call. *)
Ltac find_call Hin :=
  cbn [In] in Hin;
  repeat (destruct Hin as [Hin | Hin]; [try discriminate Hin|]);
  try contradiction.

(** Every configuration that reaches [NewSplitter] carries the host and
    the cursor file of the context, and persistence options exactly when
    the [persist-db] flag is not empty. *)
Lemma NewSplitter_call_inv (w : World) (cctx : Context) (conf : splitter.SplitterConfig) :
  In (NewSplitter conf) (calls (Splitter w cctx)) ->
  splitter.UpstreamHost conf = String cctx "splitter-host" /\
  splitter.CursorFile conf = String cctx "cursor-file" /\
  ((String cctx "persist-db" = "" /\ splitter.PebbleOptions conf = None) \/
   (String cctx "persist-db" <> "" /\
    splitter.PebbleOptions conf = Some (ppopts_of cctx))).
Proof.
  unfold ppopts_of. run_Splitter; intros Hin; find_call Hin;
    injection Hin as <-; cbn [splitter.UpstreamHost splitter.CursorFile splitter.PebbleOptions];
    auto.
Qed.

(** [NewSplitter] is reached as soon as the trace exporter does not fail. *)
Lemma NewSplitter_called (w : World) (cctx : Context) :
  exporter_ok w ->
  exists conf, In (NewSplitter conf) (calls (Splitter w cctx)).
Proof.
  unfold exporter_ok. run_Splitter; intros Hok;
    try (destruct Hok; congruence); eexists; cbn [In]; eauto.
Qed.

(** The typed look-ups of a flag are not changed by setting another. *)
Lemma String_insert_ne (cctx : Context) (k name : string) (v : FlagValue) :
  k <> name -> String (<[k := v]> cctx) name = String cctx name.
Proof. intros Hne. unfold String. now rewrite lookup_insert_ne. Qed.

Lemma Float64_insert_ne (cctx : Context) (k name : string) (v : FlagValue) :
  k <> name -> Float64 (<[k := v]> cctx) name = Float64 cctx name.
Proof. intros Hne. unfold Float64. now rewrite lookup_insert_ne. Qed.

Lemma Int64_insert_ne (cctx : Context) (k name : string) (v : FlagValue) :
  k <> name -> Int64 (<[k := v]> cctx) name = Int64 cctx name.
Proof. intros Hne. unfold Int64. now rewrite lookup_insert_ne. Qed.

(** Start-up fails when the command line does not parse, when the trace
    exporter cannot be created, or when [NewSplitter] returns an error. *)
Definition startup_failure (w : World) : Prop :=
  (exists err, parse_args w = inl err) \/
  (OTEL_EXPORTER_OTLP_ENDPOINT w <> "" /\ exists err, otlptracehttp_New w = Some err) \/
  (exists conf err,
      In (NewSplitter conf) (fst (main w)) /\ splitter_NewSplitter w conf = Some err).





(** C2: the [crawl-insecure-ws] flag is declared but never read: setting
    it to any value leaves every call of [Splitter], the configuration
    passed to [NewSplitter] included, and its result unchanged. *)
Theorem crawl_insecure_ws_is_never_read (w : World) (cctx : Context) (v : FlagValue) :
  Splitter w (<["crawl-insecure-ws" := v]> cctx) = Splitter w cctx.
Proof.
  unfold Splitter.
  rewrite !String_insert_ne, Float64_insert_ne, Int64_insert_ne by done.
  reflexivity.
Qed.

(** A flag that was not given keeps its declared default. *)
Lemma newContext_default (given : gmap string FlagValue) (name : string) :
  given !! name = None ->
  newContext app_Flags given !! name = defaults app_Flags !! name.
Proof. intros Hn. unfold newContext. now rewrite lookup_union_r. Qed.

Lemma uint64_negative (v : Z) :
  int64_min <= v < 0 -> uint64 v = v + 2 ^ 64.
Proof.
  unfold int64_min, uint64. intros Hv.
  symmetry. apply Z.mod_unique with (q := -1); lia.
Qed.






(** C6: the configuration passed to [NewSplitter] has no persistence
    options if and only if the [persist-db] flag is the empty string;
    for every other path it has options whose [DbPath] is that path. *)
Theorem persist_db_selects_mode
    (w : World) (cctx : Context) (conf : splitter.SplitterConfig) :
  In (NewSplitter conf) (calls (Splitter w cctx)) ->
  (splitter.PebbleOptions conf = None <-> String cctx "persist-db" = "") /\
  (String cctx "persist-db" <> "" ->
   exists o, splitter.PebbleOptions conf = Some o /\
             events.DbPath o = String cctx "persist-db").
Proof.
  intros Hin.
  destruct (NewSplitter_call_inv _ _ _ Hin) as (_ & _ & [[Hp Ho] | [Hp Ho]]);
    rewrite Ho; split; try split; try congruence.
  intros _. eexists. split; [reflexivity|]. reflexivity.
Qed.

(** C7: whenever persistence options are passed, their GC period is
    5 minutes, whatever the flags are. *)
Theorem gc_period_is_five_minutes
    (w : World) (cctx : Context) (conf : splitter.SplitterConfig)
    (o : events.PebblePersistOptions) :
  In (NewSplitter conf) (calls (Splitter w cctx)) ->
  splitter.PebbleOptions conf = Some o ->
  events.GCPeriod o = 5 * time.Minute /\
  events.GCPeriod o = 300 * time.Second.
Proof.
  intros Hin Ho.
  destruct (NewSplitter_call_inv _ _ _ Hin) as (_ & _ & [[Hp Ho'] | [Hp Ho']]);
    rewrite Ho' in Ho; [discriminate|].
  injection Ho as <-. split; reflexivity.
Qed.

(** ** Exact products of binary64 numbers *)

(** The number of binary digits of a positive number. *)
Lemma digits2_pos_bounds (m : positive) :
  2 ^ (Z.pos (digits2_pos m) - 1) <= Z.pos m < 2 ^ Z.pos (digits2_pos m).
Proof.
  induction m as [m IH|m IH|]; cbn [digits2_pos].
  - rewrite Pos2Z.inj_succ. replace (Z.succ (Z.pos (digits2_pos m)) - 1) with (Z.succ (Z.pos (digits2_pos m) - 1)) by lia.
    rewrite !Z.pow_succ_r by lia. lia.
  - rewrite Pos2Z.inj_succ. replace (Z.succ (Z.pos (digits2_pos m)) - 1) with (Z.succ (Z.pos (digits2_pos m) - 1)) by lia.
    rewrite !Z.pow_succ_r by lia. lia.
  - cbn. lia.
Qed.

Lemma digits2_pos_unique (m : positive) (d : Z) :
  2 ^ (d - 1) <= Z.pos m < 2 ^ d -> Z.pos (digits2_pos m) = d.
Proof.
  intros [Hlo Hhi]. pose proof (digits2_pos_bounds m) as [Hlo' Hhi'].
  assert (0 < d).
  { destruct (Z_lt_le_dec 0 d) as [?|Hd]; [assumption|].
    assert (2 ^ d <= 1); [|lia].
    destruct (Z.eq_dec d 0) as [->|?]; [cbn; lia|].
    rewrite Z.pow_neg_r by lia. lia. }
  destruct (Z.lt_trichotomy (Z.pos (digits2_pos m)) d) as [Hlt | [Heq | Hgt]]; [|exact Heq|].
  - assert (2 ^ Z.pos (digits2_pos m) <= 2 ^ (d - 1)) by (apply Z.pow_le_mono_r; lia). lia.
  - assert (2 ^ d <= 2 ^ (Z.pos (digits2_pos m) - 1)) by (apply Z.pow_le_mono_r; lia). lia.
Qed.

Lemma pow2_xO (p : positive) : 2 ^ Z.pos p~0 = 2 ^ Z.pos p * 2 ^ Z.pos p.
Proof.
  replace (Z.pos p~0) with (Z.pos p + Z.pos p) by lia.
  apply Z.pow_add_r; lia.
Qed.

Lemma pow2_xI (p : positive) : 2 ^ Z.pos p~1 = 2 * (2 ^ Z.pos p * 2 ^ Z.pos p).
Proof.
  replace (Z.pos p~1) with (1 + Z.pos p~0) by lia.
  rewrite Z.pow_add_r by lia. rewrite pow2_xO. reflexivity.
Qed.

(** Shifting out zero bits is exact. *)
Lemma iter_shr_1_exact (p : positive) (q : positive) :
  SpecFloat.iter_pos shr_1 p
    {| shr_m := Z.pos (q * 2 ^ p); shr_r := false; shr_s := false |}
  = {| shr_m := Z.pos q; shr_r := false; shr_s := false |}.
Proof.
  revert q. induction p as [p IH|p IH|]; intros q; cbn [SpecFloat.iter_pos].
  - replace (q * 2 ^ p~1)%positive with ((q * 2 ^ p * 2 ^ p)~0)%positive.
    + cbn [shr_1 orb]. rewrite IH. apply IH.
    + apply Pos2Z.inj. rewrite Pos2Z.inj_xO, !Pos2Z.inj_mul, !Pos2Z.inj_pow, pow2_xI. ring.
  - replace (q * 2 ^ p~0)%positive with (q * 2 ^ p * 2 ^ p)%positive.
    + rewrite IH. apply IH.
    + apply Pos2Z.inj. rewrite !Pos2Z.inj_mul, !Pos2Z.inj_pow, pow2_xO. ring.
  - replace (q * 2 ^ 1)%positive with (q~0)%positive; [reflexivity|].
    apply Pos2Z.inj. rewrite Pos2Z.inj_xO, Pos2Z.inj_mul. cbn. lia.
Qed.

(** When the exact product of two positive binary64 numbers is a number
    [z * 2^k] with [z] below 2^53, which binary64 holds exactly, the
    rounded product is that number. *)
Lemma SF64mul_exact (m1 m2 : positive) (e1 e2 z k : Z) :
  1 <= z < 2 ^ 53 ->
  0 <= k <= 900 ->
  e1 + e2 <= k ->
  Z.pos (m1 * m2) = z * 2 ^ (k - (e1 + e2)) ->
  exists (m : positive) (e : Z),
    SF64mul (S754_finite false m1 e1) (S754_finite false m2 e2) = S754_finite false m e /\
    e <= k /\ Z.pos m = z * 2 ^ (k - e).
Proof.
  intros Hz Hk He Hval.
  set (M := (m1 * m2)%positive) in *. set (E := e1 + e2) in *.
  set (d := Z.pos (digits2_pos M)).
  assert (Hdz : exists dz, 1 <= dz <= 53 /\ 2 ^ (dz - 1) <= z < 2 ^ dz).
  { destruct z as [|pz|pz]; [lia| |lia].
    exists (Z.pos (digits2_pos pz)). pose proof (digits2_pos_bounds pz) as [H1 H2].
    split; [|split; assumption].
    split; [lia|].
    destruct (Z_le_gt_dec (Z.pos (digits2_pos pz)) 53) as [?|Hgt]; [assumption|].
    assert (2 ^ 53 <= 2 ^ (Z.pos (digits2_pos pz) - 1)) by (apply Z.pow_le_mono_r; lia).
    lia. }
  destruct Hdz as (dz & Hdz & Hzlo & Hzhi).
  assert (Hd : d = dz + (k - E)).
  { apply digits2_pos_unique. rewrite Hval.
    assert (0 < 2 ^ (k - E)) by (apply Z.pow_pos_nonneg; lia).
    replace (dz + (k - E) - 1) with ((dz - 1) + (k - E)) by lia.
    rewrite !Z.pow_add_r by lia. nia. }
  unfold SF64mul, SFmul. cbn [xorb]. fold M E.
  unfold binary_round_aux, shr_fexp.
  cbn [Zdigits2 shr_record_of_loc]. fold d.
  unfold fexp, emin, prec, emax.
  replace ((d + E - 53) `max` (3 - 1024 - 53) - E) with (d - 53) by lia.
  destruct (d - 53) as [|p|p] eqn:Hshift; cbn [shr].
  - (* the product has 53 digits *)
    cbn [shr_m loc_of_shr_record round_nearest_even Zdigits2]. fold d.
    replace ((d + E - 53) `max` (3 - 1024 - 53) - E) with 0 by lia.
    cbn [shr shr_m].
    exists M, E. replace (E <=? 1024 - 53) with true by (symmetry; apply Z.leb_le; lia).
    auto.
  - (* the low [p] bits of the product are zero *)
    assert (Hq : exists q : positive, Z.pos q = z * 2 ^ (53 - dz)).
    { assert (0 < z * 2 ^ (53 - dz)) by (apply Z.mul_pos_pos; [lia|apply Z.pow_pos_nonneg; lia]).
      destruct (z * 2 ^ (53 - dz)) as [|q|q] eqn:Hq; [lia| |lia]. now exists q. }
    destruct Hq as (q & Hq).
    assert (HM : M = (q * 2 ^ p)%positive).
    { apply Pos2Z.inj. rewrite Pos2Z.inj_mul, Pos2Z.inj_pow, Hq, Hval.
      replace (k - E) with ((53 - dz) + Z.pos p) by lia.
      rewrite Z.pow_add_r by lia. ring. }
    rewrite HM, iter_shr_1_exact.
    cbn [shr_m loc_of_shr_record round_nearest_even Zdigits2].
    assert (Hdq : Z.pos (digits2_pos q) = 53).
    { apply digits2_pos_unique. rewrite Hq.
      assert (2 ^ 52 = 2 ^ (dz - 1) * 2 ^ (53 - dz))
        by (rewrite <- Z.pow_add_r by lia; f_equal; lia).
      assert (2 ^ 53 = 2 ^ dz * 2 ^ (53 - dz))
        by (rewrite <- Z.pow_add_r by lia; f_equal; lia).
      assert (0 < 2 ^ (53 - dz)) by (apply Z.pow_pos_nonneg; lia).
      change (53 - 1) with 52. nia. }
    rewrite Hdq.
    replace ((53 + (E + Z.pos p) - 53) `max` (3 - 1024 - 53) - (E + Z.pos p)) with 0 by lia.
    cbn [shr shr_m].
    exists q, (E + Z.pos p).
    replace (E + Z.pos p <=? 1024 - 53) with true by (symmetry; apply Z.leb_le; lia).
    split; [reflexivity|]. split; [lia|].
    rewrite Hq. f_equal. f_equal. lia.
  - (* fewer than 53 digits *)
    cbn [shr_m loc_of_shr_record round_nearest_even Zdigits2]. fold d.
    replace ((d + E - 53) `max` (3 - 1024 - 53) - E) with (Z.neg p) by lia.
    cbn [shr shr_m].
    exists M, E. replace (E <=? 1024 - 53) with true by (symmetry; apply Z.leb_le; lia).
    auto.
Qed.

(** [time.Hour] as a binary64 number: 7372800000000000 * 2^-11. *)
Lemma Prim2SF_Hour :
  Prim2SF (float64 time.Hour) = S754_finite false 7372800000000000 (-11).
Proof. vm_compute. reflexivity. Qed.

(** When a positive number of hours [m * 2^e] times one hour is a whole
    number [z * 2^k] of nanoseconds, with [z] below 2^53, that fits a
    [time.Duration], the conversion gives that number. *)
Lemma hours_times_Hour_exact (h : float) (m : positive) (e z k : Z) :
  Prim2SF h = S754_finite false m e ->
  e <= 0 ->
  1 <= z < 2 ^ 53 ->
  0 <= k ->
  z * 2 ^ k <= int64_max ->
  Z.pos m * time.Hour = z * 2 ^ (k - e) ->
  int64_of_float64 (float64 time.Hour * h) = z * 2 ^ k.
Proof.
  intros Hh He Hz Hk Hfit Hval.
  assert (Hk' : k <= 63).
  { destruct (Z_le_gt_dec k 63) as [?|Hgt]; [assumption|].
    assert (2 ^ 64 <= 2 ^ k) by (apply Z.pow_le_mono_r; lia).
    unfold int64_max in Hfit. nia. }
  destruct (SF64mul_exact 7372800000000000 m (-11) e z k Hz) as (m' & e' & Hmul & He' & Hm').
  - lia.
  - lia.
  - rewrite Pos2Z.inj_mul.
    replace (k - (-11 + e)) with (11 + (k - e)) by lia.
    rewrite Z.pow_add_r by lia.
    change (Z.pos 7372800000000000) with (2 ^ 11 * time.Hour).
    rewrite <- Z.mul_assoc, (Z.mul_comm time.Hour), Hval. ring.
  - unfold int64_of_float64, float64_trunc.
    rewrite mul_spec, Prim2SF_Hour, Hh, Hmul.
    assert (Hz' : (if 0 <=? e' then Z.pos m' * 2 ^ e' else Z.pos m' / 2 ^ (- e')) = z * 2 ^ k).
    { rewrite Hm'. destruct (0 <=? e') eqn:Hsign.
      - apply Z.leb_le in Hsign. rewrite <- Z.mul_assoc, <- Z.pow_add_r by lia.
        f_equal. f_equal. lia.
      - apply Z.leb_gt in Hsign.
        replace (k - e') with (k + (- e')) by lia.
        rewrite Z.pow_add_r, Z.mul_assoc by lia. apply Z.div_mul.
        assert (0 < 2 ^ (- e')) by (apply Z.pow_pos_nonneg; lia). lia. }
    rewrite Hz'.
    replace ((int64_min <=? z * 2 ^ k) && (z * 2 ^ k <=? int64_max)) with true; [reflexivity|].
    symmetry. apply andb_true_iff.
    assert (0 < 2 ^ k) by (apply Z.pow_pos_nonneg; lia).
    unfold int64_min. split; apply Z.leb_le; [nia|exact Hfit].
Qed.

(** Two million hours, beyond 2^53 nanoseconds, are still converted
    exactly: 2000000 * time.Hour = 6866455078125 * 2^20. *)
Example two_million_hours :
  int64_of_float64 (float64 time.Hour * 2000000%float) = 2000000 * time.Hour.
Proof.
  change (2000000 * time.Hour) with (6866455078125 * 2 ^ 20).
  eapply (hours_times_Hour_exact _ _ _ 6866455078125 20).
  - vm_compute. reflexivity.
  - lia.
  - lia.
  - lia.
  - vm_compute. discriminate.
  - vm_compute. reflexivity.
Qed.


(** ** The run without any flag *)

Definition default_context : Context := newContext app_Flags ∅.

Definition default_ppopts : events.PebblePersistOptions := {|
  events.DbPath := "./rainbow.db";
  events.PersistDuration := 604800000000000;
  events.GCPeriod := 300000000000;
  events.MaxBytes := 0;
|}.

Definition default_conf : splitter.SplitterConfig := {|
  splitter.UpstreamHost := "bsky.network";
  splitter.CursorFile := "./rainbow-cursor";
  splitter.PebbleOptions := Some default_ppopts;
|}.

Lemma default_run_calls_NewSplitter :
  In (NewSplitter default_conf) (calls (Splitter (quiet_world ∅ Signal) default_context)).
Proof. vm_compute. left. reflexivity. Qed.

Lemma persist_db_selects_mode_witness :
  (splitter.PebbleOptions default_conf = None <->
   String default_context "persist-db" = "") /\
  (String default_context "persist-db" <> "" ->
   exists o, splitter.PebbleOptions default_conf = Some o /\
             events.DbPath o = String default_context "persist-db").
Proof.
  apply (persist_db_selects_mode (quiet_world ∅ Signal) default_context default_conf).
  vm_compute. left. reflexivity.
Defined.

Lemma gc_period_is_five_minutes_witness :
  events.GCPeriod default_ppopts = 5 * time.Minute /\
  events.GCPeriod default_ppopts = 300 * time.Second.
Proof.
  apply (gc_period_is_five_minutes (quiet_world ∅ Signal) default_context default_conf).
  - vm_compute. left. reflexivity.
  - reflexivity.
Defined.


End rainbow_facts.

(** * Properties of the [Effects] accumulator *)

Module engine_facts.

Import engine.

Lemma found_In (l : list string) (val : string) :
  found l val = true <-> In val l.
Proof.
  induction l as [|v rest IH]; cbn [found In].
  - split; [discriminate|tauto].
  - destruct (String.eqb v val) eqn:E.
    + apply String.eqb_eq in E. tauto.
    + apply String.eqb_neq in E. rewrite IH. tauto.
Qed.

Lemma found_last (l : list string) (val : string) :
  found (l ++ [val]) val = true.
Proof. apply found_In, in_or_app. right. now left. Qed.

Lemma NoDup_add_last (l : list string) (val : string) :
  List.NoDup l -> found l val = false -> List.NoDup (l ++ [val]).
Proof.
  intros Hnd Hf.
  assert (Hnot : ~ In val l) by (rewrite <- found_In, Hf; discriminate).
  clear Hf.
  induction Hnd as [|x l Hx Hnd IH]; cbn [app].
  - constructor; [intros []|constructor].
  - constructor.
    + rewrite in_app_iff. cbn [In].
      intros [Hin | [-> | []]]; [tauto|].
      apply Hnot. now left.
    + apply IH. intros Hin. apply Hnot. now right.
Qed.

(** A method that adds a value to a list field is idempotent when a call
    with a value already in the list changes nothing, and hence a second
    call with the same value changes nothing. *)
Definition idempotent_on
    (add : string -> Effects -> Effects) (field : Effects -> list string) : Prop :=
  forall (e : Effects) (val : string),
    (In val (field e) -> add val e = e) /\
    add val (add val e) = add val e.

(** None of the six de-duplicated lists holds a value twice. *)
Definition no_duplicates (e : Effects) : Prop :=
  List.NoDup (AccountLabels e) /\
  List.NoDup (AccountFlags e) /\
  List.NoDup (RecordLabels e) /\
  List.NoDup (RecordFlags e) /\
  List.NoDup (BlobTakedowns e) /\
  List.NoDup (NotifyServices e).

Ltac prove_idempotent add field :=
  intros e val; unfold add; split;
  [ intros Hin; apply found_In in Hin; rewrite Hin; reflexivity
  | destruct (found (field e) val) eqn:Hf;
    [ rewrite Hf; reflexivity
    | cbn [field]; rewrite found_last; reflexivity ] ].

Lemma AddAccountLabel_idempotent : idempotent_on AddAccountLabel AccountLabels.
Proof. prove_idempotent AddAccountLabel AccountLabels. Qed.

Lemma AddAccountFlag_idempotent : idempotent_on AddAccountFlag AccountFlags.
Proof. prove_idempotent AddAccountFlag AccountFlags. Qed.

Lemma AddRecordLabel_idempotent : idempotent_on AddRecordLabel RecordLabels.
Proof. prove_idempotent AddRecordLabel RecordLabels. Qed.

Lemma AddRecordFlag_idempotent : idempotent_on AddRecordFlag RecordFlags.
Proof. prove_idempotent AddRecordFlag RecordFlags. Qed.

Lemma TakedownBlob_idempotent : idempotent_on TakedownBlob BlobTakedowns.
Proof. prove_idempotent TakedownBlob BlobTakedowns. Qed.

Lemma Notify_idempotent : idempotent_on Notify NotifyServices.
Proof. prove_idempotent Notify NotifyServices. Qed.

(** Every method keeps the six lists free of duplicates. *)
Lemma call_no_duplicates (e : Effects) (m : Method) :
  no_duplicates e -> no_duplicates (call e m).
Proof.
  unfold no_duplicates. intros (H1 & H2 & H3 & H4 & H5 & H6).
  destruct m; cbn [call];
    unfold Increment, IncrementPeriod, IncrementDistinct, AddAccountLabel,
           AddAccountFlag, ReportAccount, TakedownAccount, EscalateAccount,
           AcknowledgeAccount, AddRecordLabel, AddRecordFlag, ReportRecord,
           TakedownRecord, TakedownBlob, Notify, Reject;
    repeat match goal with
           | |- context [if ?b then _ else _] => destruct b eqn:?
           end;
    cbn [AccountLabels AccountFlags RecordLabels RecordFlags BlobTakedowns NotifyServices];
    repeat split; auto using NoDup_add_last.
Qed.

Lemma calls_on_no_duplicates (ms : list Method) (e : Effects) :
  no_duplicates e -> no_duplicates (calls_on e ms).
Proof.
  unfold calls_on. revert e.
  induction ms as [|m ms IH]; intros e He; cbn [fold_left].
  - exact He.
  - apply IH, call_no_duplicates, He.
Qed.

Lemma zero_no_duplicates : no_duplicates zero.
Proof. unfold no_duplicates, zero; cbn. repeat split; constructor. Qed.

(** C9: each of [AddAccountLabel], [AddAccountFlag], [AddRecordLabel],
    [AddRecordFlag], [TakedownBlob] and [Notify] leaves the [Effects]
    unchanged when the value is already in its list, so a second call
    with the same value changes nothing; and after any sequence of method
    calls on a fresh [Effects] none of the six lists holds a value twice. *)
Theorem add_methods_idempotent :
  idempotent_on AddAccountLabel AccountLabels /\
  idempotent_on AddAccountFlag AccountFlags /\
  idempotent_on AddRecordLabel RecordLabels /\
  idempotent_on AddRecordFlag RecordFlags /\
  idempotent_on TakedownBlob BlobTakedowns /\
  idempotent_on Notify NotifyServices /\
  (forall ms : list Method, no_duplicates (calls_on zero ms)).
Proof.
  repeat split;
    [ apply AddAccountLabel_idempotent | apply AddAccountLabel_idempotent
    | apply AddAccountFlag_idempotent | apply AddAccountFlag_idempotent
    | apply AddRecordLabel_idempotent | apply AddRecordLabel_idempotent
    | apply AddRecordFlag_idempotent | apply AddRecordFlag_idempotent
    | apply TakedownBlob_idempotent | apply TakedownBlob_idempotent
    | apply Notify_idempotent | apply Notify_idempotent
    | .. ];
    apply (calls_on_no_duplicates _ zero zero_no_duplicates).
Qed.

End engine_facts.

(** * Properties of the [limit] parameter of the PDS handlers *)

Module pds_facts.

Import pds.

Lemma bind_ret {E X A B : Type} (a : A) (k : A -> Eff E X B) :
  bind (ret a) k = k a.
Proof. unfold bind, ret. destruct (k a) as [tr r]. reflexivity. Qed.

Lemma bind_stop {E X A B : Type} (x : X) (k : A -> Eff E X B) :
  bind (stop x) k = stop x.
Proof. reflexivity. Qed.

(** A parameter that the query does not have reads as the empty string. *)
Lemma QueryParam_absent (c : Context) (name : string) :
  QueryParams c !! name = None -> QueryParam c name = "".
Proof. unfold QueryParam, Values_Get. now intros ->. Qed.

Section Server.

Local Open Scope eff_scope.

Variable Out : Type.
Variable handle : Operation -> error + Out.
Variable write_JSON : Z -> Out -> option error.

Local Abbreviation Handler := (pds.Handler Out).
Local Abbreviation invoke := (pds.invoke Out handle).
Local Abbreviation JSON := (pds.JSON Out write_JSON).

(** With no [limit] in the query the handler is the call of its
    operation with the default limit, followed by the response. *)
Definition limit_defaults_to
    (H : Context -> Handler) (d : Z) (op : Context -> Z -> Operation) : Prop :=
  forall c : Context,
    QueryParam c "limit" = "" ->
    H c = (out <- invoke (op c d) ;; JSON 200 out).

(** A [limit] that is given and that [Atoi] refuses makes the handler
    return [Atoi]'s error without any call. *)
Definition limit_parse_error_returned (H : Context -> Handler) : Prop :=
  forall (c : Context) (p : string) (err : error),
    QueryParam c "limit" = p ->
    p <> "" ->
    snd (strconv.Atoi p) = Some err ->
    H c = ([], inl err).

Ltac limit_absent :=
  intros c Hp; cbv beta delta
    [HandleComAtprotoAdminGetInviteCodes HandleComAtprotoLabelQueryLabels
     HandleComAtprotoRepoListRecords HandleComAtprotoSyncListBlobs
     HandleComAtprotoSyncListRepos HandleComAtprotoTempFetchLabels] zeta;
  rewrite Hp; destruct (decide ("" <> "")) as [Hne|_]; [now destruct Hne|];
  rewrite bind_ret; reflexivity.

Ltac limit_refused :=
  intros c p err Hp Hne Herr; cbv beta delta
    [HandleComAtprotoAdminGetInviteCodes HandleComAtprotoLabelQueryLabels
     HandleComAtprotoRepoListRecords HandleComAtprotoSyncListBlobs
     HandleComAtprotoSyncListRepos HandleComAtprotoTempFetchLabels] zeta;
  rewrite Hp; destruct (decide (p <> "")) as [_|Hn]; [|contradiction];
  destruct (strconv.Atoi p) as [v e]; cbn [snd] in Herr; subst e;
  reflexivity.

Lemma GetInviteCodes_default :
  limit_defaults_to (HandleComAtprotoAdminGetInviteCodes Out handle write_JSON) 100
    (fun c limit =>
       handleComAtprotoAdminGetInviteCodes
         (QueryParam c "cursor") limit (QueryParam c "sort")).
Proof. limit_absent. Qed.

Lemma QueryLabels_default :
  limit_defaults_to (HandleComAtprotoLabelQueryLabels Out handle write_JSON) 50
    (fun c limit =>
       handleComAtprotoLabelQueryLabels
         (QueryParam c "cursor") limit
         (QueryParams_at c "sources") (QueryParams_at c "uriPatterns")).
Proof. limit_absent. Qed.

Lemma ListBlobs_default :
  limit_defaults_to (HandleComAtprotoSyncListBlobs Out handle write_JSON) 500
    (fun c limit =>
       handleComAtprotoSyncListBlobs
         (QueryParam c "cursor") (QueryParam c "did") limit (QueryParam c "since")).
Proof. limit_absent. Qed.

Lemma ListRepos_default :
  limit_defaults_to (HandleComAtprotoSyncListRepos Out handle write_JSON) 500
    (fun c limit => handleComAtprotoSyncListRepos (QueryParam c "cursor") limit).
Proof. limit_absent. Qed.

(** The two other handlers read a second parameter before the call. *)
Lemma ListRecords_default (c : Context) :
  QueryParam c "limit" = "" ->
  QueryParam c "reverse" = "" ->
  HandleComAtprotoRepoListRecords Out handle write_JSON c =
    (out <- invoke (handleComAtprotoRepoListRecords
                      (QueryParam c "collection") (QueryParam c "cursor") 50
                      (QueryParam c "repo") None
                      (QueryParam c "rkeyEnd") (QueryParam c "rkeyStart")) ;;
     JSON 200 out).
Proof.
  intros Hp Hr. unfold HandleComAtprotoRepoListRecords.
  rewrite Hp, Hr. destruct (decide ("" <> "")) as [Hne|_]; [now destruct Hne|].
  rewrite !bind_ret. reflexivity.
Qed.

Lemma FetchLabels_default (c : Context) :
  QueryParam c "limit" = "" ->
  QueryParam c "since" = "" ->
  HandleComAtprotoTempFetchLabels Out handle write_JSON c =
    (out <- invoke (handleComAtprotoTempFetchLabels 50 None) ;; JSON 200 out).
Proof.
  intros Hp Hr. unfold HandleComAtprotoTempFetchLabels.
  rewrite Hp, Hr. destruct (decide ("" <> "")) as [Hne|_]; [now destruct Hne|].
  rewrite !bind_ret. reflexivity.
Qed.

Lemma GetInviteCodes_refuses :
  limit_parse_error_returned (HandleComAtprotoAdminGetInviteCodes Out handle write_JSON).
Proof. limit_refused. Qed.

Lemma QueryLabels_refuses :
  limit_parse_error_returned (HandleComAtprotoLabelQueryLabels Out handle write_JSON).
Proof. limit_refused. Qed.

Lemma ListRecords_refuses :
  limit_parse_error_returned (HandleComAtprotoRepoListRecords Out handle write_JSON).
Proof. limit_refused. Qed.

Lemma ListBlobs_refuses :
  limit_parse_error_returned (HandleComAtprotoSyncListBlobs Out handle write_JSON).
Proof. limit_refused. Qed.

Lemma ListRepos_refuses :
  limit_parse_error_returned (HandleComAtprotoSyncListRepos Out handle write_JSON).
Proof. limit_refused. Qed.

Lemma FetchLabels_refuses :
  limit_parse_error_returned (HandleComAtprotoTempFetchLabels Out handle write_JSON).
Proof. limit_refused. Qed.

(** C10, amended: with no [limit] in the query (or an empty one, which
    reads the same) each handler calls its operation with its default
    limit: 100 for getInviteCodes, 50 for queryLabels, 500 for listBlobs
    and listRepos, and 50 for listRecords and fetchLabels once their
    second parameter is read; a [limit] that is not empty and that [Atoi]
    refuses makes each of the six handlers return [Atoi]'s error with no
    call of the operation and no response written. *)
Theorem limit_parameter_handling :
  (forall c, QueryParams c !! "limit" = None -> QueryParam c "limit" = "") /\
  (forall c vs, QueryParams c !! "limit" = Some ("" :: vs) -> QueryParam c "limit" = "") /\
  limit_defaults_to (HandleComAtprotoAdminGetInviteCodes Out handle write_JSON) 100
    (fun c limit =>
       handleComAtprotoAdminGetInviteCodes
         (QueryParam c "cursor") limit (QueryParam c "sort")) /\
  limit_defaults_to (HandleComAtprotoLabelQueryLabels Out handle write_JSON) 50
    (fun c limit =>
       handleComAtprotoLabelQueryLabels
         (QueryParam c "cursor") limit
         (QueryParams_at c "sources") (QueryParams_at c "uriPatterns")) /\
  limit_defaults_to (HandleComAtprotoSyncListBlobs Out handle write_JSON) 500
    (fun c limit =>
       handleComAtprotoSyncListBlobs
         (QueryParam c "cursor") (QueryParam c "did") limit (QueryParam c "since")) /\
  limit_defaults_to (HandleComAtprotoSyncListRepos Out handle write_JSON) 500
    (fun c limit => handleComAtprotoSyncListRepos (QueryParam c "cursor") limit) /\
  (forall c,
      QueryParam c "limit" = "" -> QueryParam c "reverse" = "" ->
      HandleComAtprotoRepoListRecords Out handle write_JSON c =
        (out <- invoke (handleComAtprotoRepoListRecords
                          (QueryParam c "collection") (QueryParam c "cursor") 50
                          (QueryParam c "repo") None
                          (QueryParam c "rkeyEnd") (QueryParam c "rkeyStart")) ;;
         JSON 200 out)) /\
  (forall c,
      QueryParam c "limit" = "" -> QueryParam c "since" = "" ->
      HandleComAtprotoTempFetchLabels Out handle write_JSON c =
        (out <- invoke (handleComAtprotoTempFetchLabels 50 None) ;; JSON 200 out)) /\
  limit_parse_error_returned (HandleComAtprotoAdminGetInviteCodes Out handle write_JSON) /\
  limit_parse_error_returned (HandleComAtprotoLabelQueryLabels Out handle write_JSON) /\
  limit_parse_error_returned (HandleComAtprotoRepoListRecords Out handle write_JSON) /\
  limit_parse_error_returned (HandleComAtprotoSyncListBlobs Out handle write_JSON) /\
  limit_parse_error_returned (HandleComAtprotoSyncListRepos Out handle write_JSON) /\
  limit_parse_error_returned (HandleComAtprotoTempFetchLabels Out handle write_JSON).
Proof.
  split; [intros c; apply QueryParam_absent|].
  split; [intros c vs Hq; unfold QueryParam, Values_Get; now rewrite Hq|].
  split; [exact GetInviteCodes_default|].
  split; [exact QueryLabels_default|].
  split; [exact ListBlobs_default|].
  split; [exact ListRepos_default|].
  split; [exact ListRecords_default|].
  split; [exact FetchLabels_default|].
  split; [exact GetInviteCodes_refuses|].
  split; [exact QueryLabels_refuses|].
  split; [exact ListRecords_refuses|].
  split; [exact ListBlobs_refuses|].
  split; [exact ListRepos_refuses|].
  exact FetchLabels_refuses.
Qed.

End Server.

(** The second half of C10 as it is stated: whenever the query gives
    [limit] a value that is not an integer, getInviteCodes returns the
    parse error and calls nothing. *)
Definition every_non_integer_limit_refused : Prop :=
  forall (Out : Type) (handle : Operation -> error + Out)
         (write_JSON : Z -> Out -> option error)
         (c : Context) (p : string) (err : error),
    QueryParams c !! "limit" = Some [p] ->
    snd (strconv.Atoi p) = Some err ->
    HandleComAtprotoAdminGetInviteCodes Out handle write_JSON c = ([], inl err).

(** The request [GET /xrpc/com.atproto.admin.getInviteCodes?limit=]. *)
Definition empty_limit_request : Context :=
  {| QueryParams := {[ "limit" := [""] ]} |}.

(** C10, as stated, fails on an empty value: it is not an integer, yet
    the handler takes the default 100, calls the operation and answers. *)
Lemma empty_limit_takes_default :
  ~ every_non_integer_limit_refused.
Proof.
  intros Hclaim.
  specialize (Hclaim unit (fun _ => inr tt) (fun _ _ => None) empty_limit_request
                ""%string (strconv.syntaxError "Atoi" "")).
  assert (Hrun :
    HandleComAtprotoAdminGetInviteCodes unit (fun _ => inr tt) (fun _ _ => None)
      empty_limit_request
    = ([Handled (handleComAtprotoAdminGetInviteCodes "" 100 ""); WroteJSON 200 tt],
       inr tt)) by (vm_compute; reflexivity).
  rewrite Hrun in Hclaim.
  discriminate Hclaim; reflexivity.
Qed.

(** A request without [limit], and one whose [limit] is no number. *)
Example getInviteCodes_without_limit :
  HandleComAtprotoAdminGetInviteCodes unit (fun _ => inr tt) (fun _ _ => None)
    {| QueryParams := {[ "cursor" := ["c1"] ]} |}
  = ([Handled (handleComAtprotoAdminGetInviteCodes "c1" 100 ""); WroteJSON 200 tt],
     inr tt).
Proof. vm_compute. reflexivity. Qed.

Example listRepos_limit_abc :
  HandleComAtprotoSyncListRepos unit (fun _ => inr tt) (fun _ _ => None)
    {| QueryParams := {[ "limit" := ["abc"] ]} |}
  = ([], inl (NumError "Atoi" "abc" "invalid syntax")).
Proof. vm_compute. reflexivity. Qed.

Example listBlobs_limit_20 :
  HandleComAtprotoSyncListBlobs unit (fun _ => inr tt) (fun _ _ => None)
    {| QueryParams := {[ "limit" := ["20"]; "did" := ["did:plc:abc111"] ]} |}
  = ([Handled (handleComAtprotoSyncListBlobs "" "did:plc:abc111" 20 ""); WroteJSON 200 tt],
     inr tt).
Proof. vm_compute. reflexivity. Qed.

End pds_facts.

(** * Properties of the relay engine *)

Module relay_facts.

Import relay.

(** ** Increasing lists and their segments *)













(** ** One subscriber *)



















(** ** The engine *)

















(** ** Runs of the engine *)

Definition message (s : Z) : Frame :=
  {| kind := Message; seq := s; size := 512; body := [] |}.

(** A queue of three frames, no size cap. *)
Definition small_queue : Config :=
  {| persist_duration := 3600; max_bytes := 0; queue_capacity := 3;
     small_tolerance := 0 |}.

(** Subscriber 7 attaches with cursor 2 after three frames, replays 2 and
    3 while 4 and 5 are staged, merges, receives 6, and is closed as too
    slow when four more frames arrive that it does not read. *)
Definition replay_then_live : list Event := [
  Upstream (message 1) 0; Upstream (message 2) 1; Upstream (message 3) 2;
  Accept 7 (Some 2);
  Upstream (message 4) 3; Write 7; Upstream (message 5) 4;
  Write 7; Write 7; Upstream (message 6) 5; Write 7;
  Upstream (message 7) 6; Upstream (message 8) 7; Upstream (message 9) 8;
  Upstream (message 10) 9
].

Definition subscriber_7 : Subscriber :=
  match registry (run small_queue (start 0) replay_then_live) !! 7%nat with
  | Some s => s
  | None => new_subscriber None Closing []
  end.

Example subscriber_7_received :
  message_seqs (delivered subscriber_7) = [2; 3; 4; 5; 6] /\
  phase subscriber_7 = Closing /\
  disconnect_reason subscriber_7 = Some ConsumerTooSlow.
Proof. vm_compute. auto. Qed.


(** Scenario 4 of the specification: with [max_bytes = 1024] and frames
    of 512 bytes, two of four admitted frames remain and [seq_lo] is 3. *)
Example size_eviction_scenario :
  let cfg := {| persist_duration := 3600; max_bytes := 1024; queue_capacity := 3;
                small_tolerance := 0 |} in
  let st := run cfg (start 0)
              [Upstream (message 1) 0; Upstream (message 2) 1;
               Upstream (message 3) 2; Upstream (message 4) 3] in
  seqs_of (cache st) = [3; 4] /\ bounds (cache st) = Some (3, 4).
Proof. vm_compute. auto. Qed.

End relay_facts.

(** * Retention: the options of [main.go] in the eviction of the engine *)

Module retention_facts.

Import cli rainbow rainbow_facts.

(** Without a positive [max_bytes] the background task is the time
    eviction alone. *)
Lemma gc_without_size_cap (cfg : relay.Config) (now : Z) (cache : relay.Cache) :
  relay.max_bytes cfg <= 0 ->
  relay.gc cfg now cache = relay.time_evict now (relay.persist_duration cfg) cache.
Proof.
  intros Hmb. unfold relay.gc.
  destruct (0 <? relay.max_bytes cfg) eqn:Hpos; [|reflexivity].
  apply Z.ltb_lt in Hpos. lia.
Qed.

(** Time eviction removes, from the low end, only entries older than the
    persist duration. *)
Lemma time_evict_expired (now pd : Z) (cache : relay.Cache) :
  exists evicted,
    cache = evicted ++ relay.time_evict now pd cache /\
    Forall (fun e => pd < now - relay.received_at e) evicted.
Proof.
  induction cache as [|e rest (ev & Heq & Hall)]; cbn [relay.time_evict].
  - exists []. split; [reflexivity|constructor].
  - destruct (pd <? now - relay.received_at e) eqn:He.
    + exists (e :: ev). split; [cbn [app]; now f_equal|].
      constructor; [now apply Z.ltb_lt|exact Hall].
    + exists []. split; [reflexivity|constructor].
Qed.

(** C4: when the [persist-bytes] flag is 0, as it is when it is not
    given, the [MaxBytes] passed to [NewSplitter] is 0, and with that cap
    the engine of the specification evicts nothing on account of size:
    the background task is the time eviction alone, every entry it
    removes is older than the persist duration, and an admission removes
    nothing. Whatever the cap, an entry that the time eviction keeps is
    removed only if [max_bytes > 0]. *)
Theorem zero_persist_bytes_disables_size_eviction
    (w : World) (cctx : Context) (conf : splitter.SplitterConfig)
    (o : events.PebblePersistOptions) :
  In (NewSplitter conf) (calls (Splitter w cctx)) ->
  splitter.PebbleOptions conf = Some o ->
  Int64 cctx "persist-bytes" = 0 ->
  events.MaxBytes o = 0 /\
  (forall given, given !! "persist-bytes" = None ->
                 Int64 (newContext app_Flags given) "persist-bytes" = 0) /\
  (forall (cfg : relay.Config) (now : Z) (cache : relay.Cache),
      relay.max_bytes cfg = events.MaxBytes o ->
      relay.gc cfg now cache = relay.time_evict now (relay.persist_duration cfg) cache /\
      relay.after_admission cfg cache = cache /\
      exists evicted,
        cache = evicted ++ relay.gc cfg now cache /\
        Forall (fun e => relay.persist_duration cfg < now - relay.received_at e) evicted) /\
  (forall (cfg : relay.Config) (now : Z) (cache : relay.Cache) (e : relay.Entry),
      In e (relay.time_evict now (relay.persist_duration cfg) cache) ->
      ~ In e (relay.gc cfg now cache) ->
      0 < relay.max_bytes cfg).
Proof.
  intros Hin Ho Hflag.
  destruct (NewSplitter_call_inv _ _ _ Hin) as (_ & _ & [[Hp Ho'] | [Hp Ho']]);
    rewrite Ho' in Ho; [discriminate|].
  injection Ho as <-. cbn [events.MaxBytes ppopts_of]. rewrite Hflag.
  split; [reflexivity|]. split; [|split].
  - intros given Hn. unfold Int64. rewrite (newContext_default _ _ Hn).
    vm_compute. reflexivity.
  - intros cfg now cache Hmb. change (uint64 0) with 0 in Hmb.
    assert (Hle : relay.max_bytes cfg <= 0) by lia.
    rewrite (gc_without_size_cap cfg now cache Hle).
    split; [reflexivity|]. split.
    + unfold relay.after_admission. now rewrite Hmb.
    + apply time_evict_expired.
  - intros cfg now cache e Hkept Hgone.
    destruct (Z_lt_le_dec 0 (relay.max_bytes cfg)) as [Hpos|Hle]; [exact Hpos|].
    rewrite (gc_without_size_cap cfg now cache Hle) in Hgone. contradiction.
Qed.

Lemma zero_persist_bytes_disables_size_eviction_witness :
  events.MaxBytes default_ppopts = 0 /\
  (forall now cache,
      relay.gc relay_facts.small_queue now cache
      = relay.time_evict now (relay.persist_duration relay_facts.small_queue) cache).
Proof.
  destruct (zero_persist_bytes_disables_size_eviction
              (quiet_world ∅ Signal) default_context default_conf default_ppopts)
    as (Hmb & _ & Hgc & _).
  - vm_compute. left. reflexivity.
  - reflexivity.
  - vm_compute. reflexivity.
  - split; [exact Hmb|].
    intros now cache. apply (Hgc relay_facts.small_queue now cache). reflexivity.
Defined.

(** The sentence of C8 as it is stated: every negative [persist-bytes]
    ends as a [MaxBytes] greater than 2^63. *)
Definition negative_persist_bytes_exceed_2_63 : Prop :=
  forall (w : World) (cctx : Context) (conf : splitter.SplitterConfig)
         (o : events.PebblePersistOptions),
    In (NewSplitter conf) (calls (Splitter w cctx)) ->
    splitter.PebbleOptions conf = Some o ->
    int64_min <= Int64 cctx "persist-bytes" < 0 ->
    2 ^ 63 < events.MaxBytes o.

(** The context of [rainbow --persist-bytes=-9223372036854775808]. *)
Definition min_persist_bytes_context : Context :=
  newContext app_Flags {[ "persist-bytes" := Int64Value int64_min ]}.

(** C8, as stated, fails at the least [int64]: the [MaxBytes] passed to
    [NewSplitter] is then 2^63 itself. *)
Lemma min_persist_bytes_gives_2_63 :
  ~ negative_persist_bytes_exceed_2_63.
Proof.
  intros Hclaim.
  pose (o := ppopts_of min_persist_bytes_context).
  pose (conf := {| splitter.UpstreamHost := "bsky.network";
                   splitter.CursorFile := "./rainbow-cursor";
                   splitter.PebbleOptions := Some o |}).
  assert (Hlt : 2 ^ 63 < events.MaxBytes o).
  { apply (Hclaim (quiet_world ∅ Signal) min_persist_bytes_context conf o).
    - vm_compute. left. reflexivity.
    - reflexivity.
    - vm_compute. split; congruence. }
  vm_compute in Hlt. discriminate.
Qed.

(** C8, amended: a negative [persist-bytes] is not refused; unless the
    trace exporter fails first, [NewSplitter] is called with persistence
    options whose [MaxBytes] is the flag plus 2^64, a value that is at
    least 2^63; being positive, it is a cap with which the background
    task of the specification runs its size eviction. *)
Theorem negative_persist_bytes_wraps (w : World) (cctx : Context) (v : Z) :
  Int64 cctx "persist-bytes" = v ->
  int64_min <= v < 0 ->
  String cctx "persist-db" <> "" ->
  exporter_ok w ->
  exists conf o,
    In (NewSplitter conf) (calls (Splitter w cctx)) /\
    splitter.PebbleOptions conf = Some o /\
    events.MaxBytes o = v + 2 ^ 64 /\
    2 ^ 63 <= events.MaxBytes o < 2 ^ 64 /\
    0 < events.MaxBytes o /\
    (forall (cfg : relay.Config) (now : Z) (cache : relay.Cache),
        relay.max_bytes cfg = events.MaxBytes o ->
        relay.gc cfg now cache
        = relay.size_evict (events.MaxBytes o)
            (relay.time_evict now (relay.persist_duration cfg) cache)).
Proof.
  intros Hv Hneg Hdb Hok.
  destruct (NewSplitter_called w cctx Hok) as (conf & Hin).
  destruct (NewSplitter_call_inv _ _ _ Hin) as (_ & _ & [[Hp Ho] | [Hp Ho]]);
    [contradiction|].
  exists conf, (ppopts_of cctx). split; [exact Hin|]. split; [exact Ho|].
  cbn [events.MaxBytes ppopts_of]. rewrite Hv, (uint64_negative v Hneg).
  unfold int64_min in Hneg.
  split; [lia|]. split; [lia|]. split; [lia|].
  intros cfg now cache Hmb. unfold relay.gc. rewrite Hmb.
  destruct (0 <? v + 2 ^ 64) eqn:Hpos; [reflexivity|].
  apply Z.ltb_ge in Hpos. lia.
Qed.


Lemma negative_persist_bytes_wraps_witness :
  exists conf o,
    In (NewSplitter conf)
       (calls (Splitter (quiet_world ∅ Signal)
                 (newContext app_Flags {[ "persist-bytes" := Int64Value (-1) ]}))) /\
    splitter.PebbleOptions conf = Some o /\
    events.MaxBytes o = -1 + 2 ^ 64 /\
    2 ^ 63 <= events.MaxBytes o < 2 ^ 64 /\
    0 < events.MaxBytes o /\
    (forall (cfg : relay.Config) (now : Z) (cache : relay.Cache),
        relay.max_bytes cfg = events.MaxBytes o ->
        relay.gc cfg now cache
        = relay.size_evict (events.MaxBytes o)
            (relay.time_evict now (relay.persist_duration cfg) cache)).
Proof.
  apply (negative_persist_bytes_wraps (quiet_world ∅ Signal)
           (newContext app_Flags {[ "persist-bytes" := Int64Value (-1) ]}) (-1)).
  - vm_compute. reflexivity.
  - unfold int64_min. lia.
  - intros H. vm_compute in H. discriminate.
  - left. reflexivity.
Defined.

End retention_facts.

(** * The calls of a run of [rainbow], in order *)

Module startup_facts.

Import cli rainbow rainbow_facts.




(** A world in which [NewSplitter] fails, as when the persistence
    database cannot be opened. *)
Definition no_database : World := {|
  parse_args := inr ∅;
  OTEL_EXPORTER_OTLP_ENDPOINT := "http://localhost:4318";
  otlptracehttp_New := None;
  splitter_NewSplitter := fun _ => Some (errors_New "pebble: cannot open ./rainbow.db");
  after_startup := Signal;
  spl_Shutdown := None;
|}.

(** X2: When start-up fails, neither listener is started and [Shutdown] is
    not called: the only calls made are the creation of the trace
    exporter and, when start-up got that far, [NewSplitter]; when the
    command line does not parse there is no call at all, and when the
    trace exporter fails [NewSplitter] is not called. *)
Theorem failed_startup_starts_nothing (w : World) :
  startup_failure w ->
  (forall c, In c (fst (main w)) ->
             c = NewTraceExporter \/ exists conf, c = NewSplitter conf) /\
  ((exists err, parse_args w = inl err) -> fst (main w) = []) /\
  (OTEL_EXPORTER_OTLP_ENDPOINT w <> "" ->
   (exists err, otlptracehttp_New w = Some err) ->
   forall conf, ~ In (NewSplitter conf) (fst (main w))).
Proof.
  unfold startup_failure. intros Hfail. split; [|split].
  - revert Hfail.
    unfold main, run, app_Run; run_Splitter;
      intros [(e' & Hp) | [(Hne & e' & He) | (conf & e' & Hin & Hs)]] c Hc;
      try congruence; try (find_call Hin; congruence);
      cbn [In] in Hc;
      repeat (destruct Hc as [<- | Hc]; [solve [left; reflexivity | right; eauto]|]);
      contradiction.
  - clear Hfail. intros (err & Hp). unfold main, run, app_Run. rewrite Hp. reflexivity.
  - clear Hfail. unfold main, run, app_Run; run_Splitter;
      intros Hne (e' & He) conf Hin; try congruence; find_call Hin.
Qed.

Lemma failed_startup_starts_nothing_witness :
  (forall c, In c (fst (main no_database)) ->
             c = NewTraceExporter \/ exists conf, c = NewSplitter conf) /\
  fst (main no_database) <> [].
Proof.
  split.
  - apply (failed_startup_starts_nothing no_database).
    right. right. eexists. eexists. split; [|reflexivity].
    vm_compute. right. left. reflexivity.
  - vm_compute. discriminate.
Defined.

(** X3: The host and the cursor file of the configuration do not depend on
    the persistence mode: with or without a [persist-db] they are the
    [splitter-host] and [cursor-file] flags, which are [bsky.network] and
    [./rainbow-cursor] when not given. *)
Theorem host_and_cursor_file_in_both_modes
    (w : World) (cctx : Context) (conf : splitter.SplitterConfig) :
  In (NewSplitter conf) (calls (Splitter w cctx)) ->
  splitter.UpstreamHost conf = String cctx "splitter-host" /\
  splitter.CursorFile conf = String cctx "cursor-file" /\
  (forall given, cctx = newContext app_Flags given ->
                 given !! "splitter-host" = None ->
                 splitter.UpstreamHost conf = "bsky.network") /\
  (forall given, cctx = newContext app_Flags given ->
                 given !! "cursor-file" = None ->
                 splitter.CursorFile conf = "./rainbow-cursor").
Proof.
  intros Hin. destruct (NewSplitter_call_inv _ _ _ Hin) as (Hh & Hc & _).
  split; [exact Hh|]. split; [exact Hc|]. split.
  - intros given -> Hn. rewrite Hh. unfold String.
    rewrite (newContext_default _ _ Hn). reflexivity.
  - intros given -> Hn. rewrite Hc. unfold String.
    rewrite (newContext_default _ _ Hn). reflexivity.
Qed.

(** The run [rainbow --persist-db= --splitter-host=relay.example.com]. *)
Definition in_memory_context : Context :=
  newContext app_Flags
    {[ "persist-db" := StringValue ""; "splitter-host" := StringValue "relay.example.com" ]}.

Definition in_memory_conf : splitter.SplitterConfig := {|
  splitter.UpstreamHost := "relay.example.com";
  splitter.CursorFile := "./rainbow-cursor";
  splitter.PebbleOptions := None;
|}.

Lemma host_and_cursor_file_in_both_modes_witness :
  splitter.UpstreamHost in_memory_conf = String in_memory_context "splitter-host" /\
  splitter.CursorFile in_memory_conf = "./rainbow-cursor".
Proof.
  destruct (host_and_cursor_file_in_both_modes
              (quiet_world ∅ Signal) in_memory_context in_memory_conf)
    as (Hh & _ & _ & Hc).
  - vm_compute. left. reflexivity.
  - split; [exact Hh|]. apply (Hc _ eq_refl). reflexivity.
Defined.

(** A world with another answer of [Shutdown]. *)
Definition with_Shutdown (w : World) (r : option error) : World := {|
  parse_args := parse_args w;
  OTEL_EXPORTER_OTLP_ENDPOINT := OTEL_EXPORTER_OTLP_ENDPOINT w;
  otlptracehttp_New := otlptracehttp_New w;
  splitter_NewSplitter := splitter_NewSplitter w;
  after_startup := after_startup w;
  spl_Shutdown := r;
|}.

(** X4: An error of [Shutdown] is logged and nothing else: the calls and the
    exit code of the run are the same as when [Shutdown] succeeds. *)
Theorem shutdown_error_is_only_logged (w : World) (r : option error) :
  main (with_Shutdown w r) = main w.
Proof.
  unfold main, run, app_Run, with_Shutdown. cbn [parse_args].
  destruct (parse_args w) as [err|given]; [reflexivity|].
  unfold Splitter, log_if_error, log_Errorw, log_Fatal, bind, emit, ret, stop.
  cbn [OTEL_EXPORTER_OTLP_ENDPOINT otlptracehttp_New splitter_NewSplitter
       after_startup spl_Shutdown].
  repeat step_Splitter; try reflexivity; destruct r; reflexivity.
Qed.

(** X5: Between [persist-bytes] and [MaxBytes] nothing is lost: [MaxBytes] is
    the flag itself when the flag is not negative, the two always differ
    by a multiple of 2^64, and [MaxBytes] is below 2^63 exactly when the
    flag is not negative, so that different flags give different caps. *)
Theorem max_bytes_of_persist_bytes
    (w : World) (cctx cctx' : Context) (conf conf' : splitter.SplitterConfig)
    (o o' : events.PebblePersistOptions) :
  In (NewSplitter conf) (calls (Splitter w cctx)) ->
  splitter.PebbleOptions conf = Some o ->
  int64_min <= Int64 cctx "persist-bytes" <= int64_max ->
  0 <= events.MaxBytes o < 2 ^ 64 /\
  (0 <= Int64 cctx "persist-bytes" -> events.MaxBytes o = Int64 cctx "persist-bytes") /\
  (events.MaxBytes o < 2 ^ 63 <-> 0 <= Int64 cctx "persist-bytes") /\
  (In (NewSplitter conf') (calls (Splitter w cctx')) ->
   splitter.PebbleOptions conf' = Some o' ->
   int64_min <= Int64 cctx' "persist-bytes" <= int64_max ->
   events.MaxBytes o = events.MaxBytes o' ->
   Int64 cctx "persist-bytes" = Int64 cctx' "persist-bytes").
Proof.
  intros Hin Ho Hv.
  destruct (NewSplitter_call_inv _ _ _ Hin) as (_ & _ & [[Hp Ho1] | [Hp Ho1]]);
    rewrite Ho1 in Ho; [discriminate|].
  injection Ho as <-. cbn [events.MaxBytes ppopts_of].
  unfold int64_min, int64_max in *.
  assert (Hcases : forall v, - 2 ^ 63 <= v <= 2 ^ 63 - 1 ->
                             uint64 v = if Z_lt_dec v 0 then v + 2 ^ 64 else v).
  { intros v Hr. destruct (Z_lt_dec v 0).
    - apply uint64_negative. unfold int64_min. lia.
    - unfold uint64. apply Z.mod_small. lia. }
  rewrite (Hcases _ Hv).
  split; [destruct (Z_lt_dec _ 0); lia|].
  split; [destruct (Z_lt_dec _ 0); lia|].
  split; [destruct (Z_lt_dec _ 0); lia|].
  intros Hin' Ho' Hv'.
  destruct (NewSplitter_call_inv _ _ _ Hin') as (_ & _ & [[Hp' Ho2] | [Hp' Ho2]]);
    rewrite Ho2 in Ho'; [discriminate|].
  injection Ho' as <-. cbn [events.MaxBytes ppopts_of].
  rewrite (Hcases _ Hv').
  destruct (Z_lt_dec _ 0); destruct (Z_lt_dec _ 0); lia.
Qed.

Lemma max_bytes_of_persist_bytes_witness :
  events.MaxBytes default_ppopts = Int64 default_context "persist-bytes".
Proof.
  destruct (max_bytes_of_persist_bytes
              (quiet_world ∅ Signal) default_context default_context
              default_conf default_conf default_ppopts default_ppopts)
    as (_ & Hsame & _).
  - vm_compute. left. reflexivity.
  - reflexivity.
  - vm_compute. split; discriminate.
  - apply Hsame. vm_compute. discriminate.
Defined.

(** ** Hours that are zero or negative *)







End startup_facts.

(** * How the [Effects] of a rule run build up *)

Module effects_facts.

Import engine engine_facts.

(** Unfolds the methods. *)
Ltac unfold_methods :=
  unfold Increment, IncrementPeriod, IncrementDistinct, AddAccountLabel,
         AddAccountFlag, ReportAccount, TakedownAccount, EscalateAccount,
         AcknowledgeAccount, AddRecordLabel, AddRecordFlag, ReportRecord,
         TakedownRecord, TakedownBlob, Notify, Reject.

Ltac project_fields :=
  cbn [CounterIncrements CounterDistinctIncrements AccountLabels AccountFlags
       AccountReports AccountTakedown AccountEscalate AccountAcknowledge
       RecordLabels RecordFlags RecordReports RecordTakedown BlobTakedowns
       RejectEvent NotifyServices].

(** One case split on a de-duplication loop over a field of [e]. *)
Ltac split_loops e :=
  repeat match goal with
         | |- context [found (?f e) ?v] => destruct (found (f e) v) eqn:?
         | |- context [found_reason (?f e) ?v] => destruct (found_reason (f e) v) eqn:?
         end.

(** The same, when a call is made on the result of another: a loop whose
    outcome is known is not split again. *)
Ltac run_loops e :=
  repeat (project_fields;
          match goal with
          | H : found ?l ?v = _ |- context [found ?l ?v] => rewrite H
          | H : found_reason ?l ?v = _ |- context [found_reason ?l ?v] => rewrite H
          | |- context [found (?f e) ?v] => destruct (found (f e) v) eqn:?
          | |- context [found_reason (?f e) ?v] => destruct (found_reason (f e) v) eqn:?
          end).

(** An induction over a sequence of calls. *)
Lemma calls_on_ind (P : Effects -> Effects -> Prop) :
  (forall e, P e e) ->
  (forall e1 e2 e3, P e1 e2 -> P e2 e3 -> P e1 e3) ->
  (forall e m, P e (call e m)) ->
  forall ms e, P e (calls_on e ms).
Proof.
  intros Hrefl Htrans Hstep. unfold calls_on.
  induction ms as [|m ms IH]; intros e; cbn [fold_left].
  - apply Hrefl.
  - eapply Htrans; [apply Hstep|apply IH].
Qed.

Lemma calls_on_snoc (e : Effects) (ms : list Method) (m : Method) :
  calls_on e (ms ++ [m]) = call (calls_on e ms) m.
Proof. unfold calls_on. now rewrite fold_left_app. Qed.

Lemma calls_on_cons (e : Effects) (ms : list Method) (m : Method) :
  calls_on e (m :: ms) = calls_on (call e m) ms.
Proof. reflexivity. Qed.

(** ** Nothing is ever taken back *)

(** [e'] holds everything that [e] holds, at the same places: each list
    of [e] is the beginning of the list of [e'], and a flag that is set
    in [e] is set in [e']. *)
Definition extends (e e' : Effects) : Prop :=
  CounterIncrements e `prefix_of` CounterIncrements e' /\
  CounterDistinctIncrements e `prefix_of` CounterDistinctIncrements e' /\
  AccountLabels e `prefix_of` AccountLabels e' /\
  AccountFlags e `prefix_of` AccountFlags e' /\
  AccountReports e `prefix_of` AccountReports e' /\
  RecordLabels e `prefix_of` RecordLabels e' /\
  RecordFlags e `prefix_of` RecordFlags e' /\
  RecordReports e `prefix_of` RecordReports e' /\
  BlobTakedowns e `prefix_of` BlobTakedowns e' /\
  NotifyServices e `prefix_of` NotifyServices e' /\
  (AccountTakedown e = true -> AccountTakedown e' = true) /\
  (AccountEscalate e = true -> AccountEscalate e' = true) /\
  (AccountAcknowledge e = true -> AccountAcknowledge e' = true) /\
  (RecordTakedown e = true -> RecordTakedown e' = true) /\
  (RejectEvent e = true -> RejectEvent e' = true).

Lemma extends_refl (e : Effects) : extends e e.
Proof. unfold extends. repeat split; auto. Qed.

Lemma extends_trans (e1 e2 e3 : Effects) :
  extends e1 e2 -> extends e2 e3 -> extends e1 e3.
Proof.
  unfold extends. intros H12 H23.
  decompose [and] H12. decompose [and] H23.
  repeat split; try (etrans; eassumption); auto.
Qed.

Lemma call_extends (e : Effects) (m : Method) : extends e (call e m).
Proof.
  unfold extends. destruct m; cbn [call]; unfold_methods; split_loops e;
    project_fields; repeat split; auto using prefix_app_r.
Qed.

Lemma calls_on_extends (ms : list Method) (e : Effects) : extends e (calls_on e ms).
Proof.
  apply calls_on_ind; [apply extends_refl|apply extends_trans|apply call_extends].
Qed.

(** X7: Whatever is called afterwards, what a sequence of calls has put in
    an [Effects] stays there, at the same place in its list. *)
Theorem effects_only_accumulate (e : Effects) (ms later : list Method) :
  extends (calls_on e ms) (calls_on e (ms ++ later)).
Proof.
  unfold calls_on at 2. rewrite fold_left_app. apply calls_on_extends.
Qed.

(** ** What the de-duplicated lists hold *)

Lemma found_snoc (l : list string) (v val : string) :
  In val (l ++ [v]) <-> In val l \/ v = val.
Proof. rewrite in_app_iff. cbn [In]. tauto. Qed.

(** The values of a list after one call: those it had, and the value of
    the call when the call is the list's own method. *)
Ltac member_after_call e m val :=
  destruct m; cbn [call]; unfold_methods; split_loops e; project_fields;
  rewrite ?found_snoc;
  split;
  try solve
    [ intros [H | H]; [exact H | try discriminate H];
      injection H as ->; now apply found_In
    | intros [H | H]; [now left | try discriminate H];
      injection H as ->; now right
    | intros [H | ->]; [now left | now right]
    | intros H; now left
    | intros [H | H]; [now left | right; congruence] ].

Lemma AccountLabels_call (e : Effects) (m : Method) (val : string) :
  In val (AccountLabels (call e m)) <->
  In val (AccountLabels e) \/ m = mAddAccountLabel val.
Proof. member_after_call e m val. Qed.

Lemma AccountFlags_call (e : Effects) (m : Method) (val : string) :
  In val (AccountFlags (call e m)) <->
  In val (AccountFlags e) \/ m = mAddAccountFlag val.
Proof. member_after_call e m val. Qed.

Lemma RecordLabels_call (e : Effects) (m : Method) (val : string) :
  In val (RecordLabels (call e m)) <->
  In val (RecordLabels e) \/ m = mAddRecordLabel val.
Proof. member_after_call e m val. Qed.

Lemma RecordFlags_call (e : Effects) (m : Method) (val : string) :
  In val (RecordFlags (call e m)) <->
  In val (RecordFlags e) \/ m = mAddRecordFlag val.
Proof. member_after_call e m val. Qed.

Lemma BlobTakedowns_call (e : Effects) (m : Method) (val : string) :
  In val (BlobTakedowns (call e m)) <->
  In val (BlobTakedowns e) \/ m = mTakedownBlob val.
Proof. member_after_call e m val. Qed.

Lemma NotifyServices_call (e : Effects) (m : Method) (val : string) :
  In val (NotifyServices (call e m)) <->
  In val (NotifyServices e) \/ m = mNotify val.
Proof. member_after_call e m val. Qed.

(** From one call to a sequence of calls. *)
Lemma member_after_calls
    (field : Effects -> list string) (add : string -> Method) (val : string) :
  (forall e m, In val (field (call e m)) <-> In val (field e) \/ m = add val) ->
  forall ms e,
    In val (field (calls_on e ms)) <-> In val (field e) \/ In (add val) ms.
Proof.
  intros Hcall. induction ms as [|m ms IH]; intros e.
  - cbn [calls_on fold_left In]. tauto.
  - rewrite calls_on_cons, IH, Hcall. cbn [In]. tauto.
Qed.

(** X8: A value is in one of the six de-duplicated lists exactly when it was
    there at the start or the list's method was called with it: no other
    method puts a value in the list, and none takes one out. *)
Theorem added_values_are_kept (e : Effects) (ms : list Method) (val : string) :
  (In val (AccountLabels (calls_on e ms)) <->
   In val (AccountLabels e) \/ In (mAddAccountLabel val) ms) /\
  (In val (AccountFlags (calls_on e ms)) <->
   In val (AccountFlags e) \/ In (mAddAccountFlag val) ms) /\
  (In val (RecordLabels (calls_on e ms)) <->
   In val (RecordLabels e) \/ In (mAddRecordLabel val) ms) /\
  (In val (RecordFlags (calls_on e ms)) <->
   In val (RecordFlags e) \/ In (mAddRecordFlag val) ms) /\
  (In val (BlobTakedowns (calls_on e ms)) <->
   In val (BlobTakedowns e) \/ In (mTakedownBlob val) ms) /\
  (In val (NotifyServices (calls_on e ms)) <->
   In val (NotifyServices e) \/ In (mNotify val) ms).
Proof.
  repeat split; revert e; revert ms;
    first
      [ apply (member_after_calls AccountLabels mAddAccountLabel);
        intros; apply AccountLabels_call
      | apply (member_after_calls AccountFlags mAddAccountFlag);
        intros; apply AccountFlags_call
      | apply (member_after_calls RecordLabels mAddRecordLabel);
        intros; apply RecordLabels_call
      | apply (member_after_calls RecordFlags mAddRecordFlag);
        intros; apply RecordFlags_call
      | apply (member_after_calls BlobTakedowns mTakedownBlob);
        intros; apply BlobTakedowns_call
      | apply (member_after_calls NotifyServices mNotify);
        intros; apply NotifyServices_call ].
Qed.

(** ** The counters *)

(** The counter a call asks to increment, when it is one of the two
    counter methods. *)
Definition counter_of (m : Method) : option CounterRef :=
  match m with
  | mIncrement name val => Some {| Name := name; Val := val; Period := None |}
  | mIncrementPeriod name val period =>
      Some {| Name := name; Val := val; Period := Some period |}
  | _ => None
  end.

Definition distinct_counter_of (m : Method) : option CounterDistinctRef :=
  match m with
  | mIncrementDistinct name bucket val =>
      Some {| DistinctName := name; Bucket := bucket; DistinctVal := val |}
  | _ => None
  end.

Lemma CounterIncrements_call (e : Effects) (m : Method) :
  CounterIncrements (call e m) =
  CounterIncrements e ++ match counter_of m with Some c => [c] | None => [] end.
Proof.
  destruct m; cbn [call counter_of]; unfold_methods; split_loops e; project_fields;
    now rewrite ?app_nil_r.
Qed.

Lemma CounterDistinctIncrements_call (e : Effects) (m : Method) :
  CounterDistinctIncrements (call e m) =
  CounterDistinctIncrements e
    ++ match distinct_counter_of m with Some c => [c] | None => [] end.
Proof.
  destruct m; cbn [call distinct_counter_of]; unfold_methods; split_loops e;
    project_fields; now rewrite ?app_nil_r.
Qed.

(** X9: The increments are a log: every call of [Increment],
    [IncrementPeriod] and [IncrementDistinct] adds one entry at the end,
    also when the same counter was asked for before, and no other method
    touches the two lists. *)
Theorem increments_are_logged_in_call_order (e : Effects) (ms : list Method) :
  CounterIncrements (calls_on e ms) = CounterIncrements e ++ omap counter_of ms /\
  CounterDistinctIncrements (calls_on e ms) =
    CounterDistinctIncrements e ++ omap distinct_counter_of ms /\
  (forall name val,
      length (CounterIncrements (Increment name val (Increment name val e))) =
      S (S (length (CounterIncrements e)))).
Proof.
  split; [|split].
  - revert e. induction ms as [|m ms IH]; intros e.
    + cbn. now rewrite app_nil_r.
    + rewrite calls_on_cons, IH, CounterIncrements_call.
      change (omap counter_of (m :: ms))
        with (match counter_of m with
              | Some c => c :: omap counter_of ms
              | None => omap counter_of ms
              end).
      destruct (counter_of m); rewrite <- app_assoc; reflexivity.
  - revert e. induction ms as [|m ms IH]; intros e.
    + cbn. now rewrite app_nil_r.
    + rewrite calls_on_cons, IH, CounterDistinctIncrements_call.
      change (omap distinct_counter_of (m :: ms))
        with (match distinct_counter_of m with
              | Some c => c :: omap distinct_counter_of ms
              | None => omap distinct_counter_of ms
              end).
      destruct (distinct_counter_of m); rewrite <- app_assoc; reflexivity.
  - intros name val. unfold Increment. project_fields.
    rewrite !length_app. cbn [length]. lia.
Qed.

(** ** The reports *)

Lemma found_reason_In (l : list ModReport) (reason : string) :
  found_reason l reason = true <-> In reason (map ReasonType l).
Proof.
  induction l as [|v rest IH]; cbn [found_reason map In].
  - split; [discriminate|tauto].
  - destruct (String.eqb (ReasonType v) reason) eqn:E.
    + apply String.eqb_eq in E. tauto.
    + apply String.eqb_neq in E. rewrite IH. tauto.
Qed.

Lemma comment_or_default_not_empty (comment : string) :
  comment_or_default comment <> "".
Proof.
  unfold comment_or_default.
  destruct (String.eqb comment "") eqn:E; [discriminate|].
  now apply String.eqb_neq in E.
Qed.

(** At most one report per reason, and no report without a comment. *)
Definition reports_ok (l : list ModReport) : Prop :=
  List.NoDup (map ReasonType l) /\ Forall (fun r => Comment r <> "") l.

Lemma reports_ok_add (l : list ModReport) (reason comment : string) :
  reports_ok l ->
  found_reason l reason = false ->
  reports_ok (l ++ [{| ReasonType := reason; Comment := comment_or_default comment |}]).
Proof.
  intros [Hnd Hc] Hf. split.
  - rewrite map_app. cbn [map ReasonType].
    assert (Hnot : ~ In reason (map ReasonType l))
      by (rewrite <- found_reason_In, Hf; discriminate).
    clear Hf Hc. induction Hnd as [|x rs Hx Hnd IH]; cbn [app].
    + constructor; [intros []|constructor].
    + constructor.
      * rewrite in_app_iff. cbn [In]. intros [Hin | [-> | []]]; [tauto|].
        apply Hnot. now left.
      * apply IH. intros Hin. apply Hnot. now right.
  - apply Forall_app. split; [exact Hc|].
    constructor; [apply comment_or_default_not_empty|constructor].
Qed.

Lemma call_reports_ok (e : Effects) (m : Method) :
  reports_ok (AccountReports e) /\ reports_ok (RecordReports e) ->
  reports_ok (AccountReports (call e m)) /\ reports_ok (RecordReports (call e m)).
Proof.
  intros [Ha Hr].
  destruct m; cbn [call]; unfold_methods; split_loops e; project_fields;
    split; auto using reports_ok_add.
Qed.

(** X10: Through any sequence of calls the two lists of reports keep at most
    one report per reason type, and every report has a comment. *)
Theorem one_report_per_reason (e : Effects) (ms : list Method) :
  reports_ok (AccountReports e) ->
  reports_ok (RecordReports e) ->
  reports_ok (AccountReports (calls_on e ms)) /\
  reports_ok (RecordReports (calls_on e ms)).
Proof.
  intros Ha Hr. revert e Ha Hr. induction ms as [|m ms IH]; intros e Ha Hr.
  - now split.
  - rewrite calls_on_cons.
    destruct (call_reports_ok e m (conj Ha Hr)) as [Ha' Hr'].
    now apply IH.
Qed.

Lemma one_report_per_reason_witness :
  reports_ok
    (AccountReports
       (calls_on zero [mReportAccount "spam" ""; mReportAccount "spam" "again";
                       mReportRecord "spam" "post"; mReportAccount "other" "x"])) /\
  reports_ok
    (RecordReports
       (calls_on zero [mReportAccount "spam" ""; mReportAccount "spam" "again";
                       mReportRecord "spam" "post"; mReportAccount "other" "x"])).
Proof.
  apply (one_report_per_reason zero); split; constructor.
Defined.

Lemma prefix_In {A : Type} (l l' : list A) (x : A) :
  l `prefix_of` l' -> In x l -> In x l'.
Proof. intros [k ->] Hin. apply in_or_app. now left. Qed.

Lemma prefix_map {A B : Type} (f : A -> B) (l l' : list A) :
  l `prefix_of` l' -> map f l `prefix_of` map f l'.
Proof. intros [k ->]. exists (map f k). apply map_app. Qed.

(** X11: Once a reason has been reported, a later report with the same reason
    changes nothing, whatever its comment and whatever was called in
    between; the report that stays is the first one, with the standard
    comment when it came without. *)
Theorem first_report_of_a_reason_stays
    (e : Effects) (reason comment later_comment : string) (ms : list Method) :
  (ReportAccount reason later_comment (calls_on (ReportAccount reason comment e) ms)
   = calls_on (ReportAccount reason comment e) ms) /\
  (ReportRecord reason later_comment (calls_on (ReportRecord reason comment e) ms)
   = calls_on (ReportRecord reason comment e) ms) /\
  (found_reason (AccountReports e) reason = false ->
   In {| ReasonType := reason; Comment := comment_or_default comment |}
      (AccountReports (calls_on (ReportAccount reason comment e) ms))) /\
  (found_reason (RecordReports e) reason = false ->
   In {| ReasonType := reason; Comment := comment_or_default comment |}
      (RecordReports (calls_on (ReportRecord reason comment e) ms))).
Proof.
  pose proof (calls_on_extends ms (ReportAccount reason comment e)) as Ha.
  pose proof (calls_on_extends ms (ReportRecord reason comment e)) as Hr.
  unfold extends in Ha, Hr.
  destruct Ha as (_ & _ & _ & _ & Ha & _).
  destruct Hr as (_ & _ & _ & _ & _ & _ & _ & Hr & _).
  split; [|split; [|split]].
  - set (e1 := calls_on (ReportAccount reason comment e) ms) in *.
    assert (Hin : found_reason (AccountReports e1) reason = true).
    { apply found_reason_In. apply (prefix_In _ _ _ (prefix_map ReasonType _ _ Ha)).
      unfold ReportAccount.
      destruct (found_reason (AccountReports e) reason) eqn:Hf.
      - now apply found_reason_In.
      - project_fields. rewrite map_app. apply in_or_app. right. now left. }
    unfold ReportAccount at 1. now rewrite Hin.
  - set (e1 := calls_on (ReportRecord reason comment e) ms) in *.
    assert (Hin : found_reason (RecordReports e1) reason = true).
    { apply found_reason_In. apply (prefix_In _ _ _ (prefix_map ReasonType _ _ Hr)).
      unfold ReportRecord.
      destruct (found_reason (RecordReports e) reason) eqn:Hf.
      - now apply found_reason_In.
      - project_fields. rewrite map_app. apply in_or_app. right. now left. }
    unfold ReportRecord at 1. now rewrite Hin.
  - intros Hf. apply (prefix_In _ _ _ Ha).
    unfold ReportAccount. rewrite Hf. project_fields.
    apply in_or_app. right. now left.
  - intros Hf. apply (prefix_In _ _ _ Hr).
    unfold ReportRecord. rewrite Hf. project_fields.
    apply in_or_app. right. now left.
Qed.

(** ** Calls that do not meet *)

(** The field a method writes. *)
Inductive Field : Type :=
| fCounterIncrements | fCounterDistinctIncrements
| fAccountLabels | fAccountFlags | fAccountReports
| fAccountTakedown | fAccountEscalate | fAccountAcknowledge
| fRecordLabels | fRecordFlags | fRecordReports | fRecordTakedown
| fBlobTakedowns | fRejectEvent | fNotifyServices.

Definition field_of (m : Method) : Field :=
  match m with
  | mIncrement _ _ | mIncrementPeriod _ _ _ => fCounterIncrements
  | mIncrementDistinct _ _ _ => fCounterDistinctIncrements
  | mAddAccountLabel _ => fAccountLabels
  | mAddAccountFlag _ => fAccountFlags
  | mReportAccount _ _ => fAccountReports
  | mTakedownAccount => fAccountTakedown
  | mEscalateAccount => fAccountEscalate
  | mAcknowledgeAccount => fAccountAcknowledge
  | mAddRecordLabel _ => fRecordLabels
  | mAddRecordFlag _ => fRecordFlags
  | mReportRecord _ _ => fRecordReports
  | mTakedownRecord => fRecordTakedown
  | mTakedownBlob _ => fBlobTakedowns
  | mNotify _ => fNotifyServices
  | mReject => fRejectEvent
  end.

(** X12: Two calls that write different fields can be made in either order. *)
Theorem calls_on_different_fields_commute (e : Effects) (m1 m2 : Method) :
  field_of m1 <> field_of m2 ->
  call (call e m1) m2 = call (call e m2) m1.
Proof.
  destruct m1, m2; cbn [field_of]; intros Hne; try (now destruct Hne);
    cbn [call]; unfold_methods; run_loops e; reflexivity.
Qed.

Lemma calls_on_different_fields_commute_witness :
  call (call zero (mAddAccountLabel "spam")) (mReportRecord "spam" "")
  = call (call zero (mReportRecord "spam" "")) (mAddAccountLabel "spam").
Proof.
  apply calls_on_different_fields_commute. discriminate.
Defined.

#[local] Instance Field_eq_dec : EqDecision Field.
Proof. solve_decision. Defined.

(** The two [Effects] agree on a field. *)
Definition same_field (f : Field) (e e' : Effects) : Prop :=
  match f with
  | fCounterIncrements => CounterIncrements e = CounterIncrements e'
  | fCounterDistinctIncrements =>
      CounterDistinctIncrements e = CounterDistinctIncrements e'
  | fAccountLabels => AccountLabels e = AccountLabels e'
  | fAccountFlags => AccountFlags e = AccountFlags e'
  | fAccountReports => AccountReports e = AccountReports e'
  | fAccountTakedown => AccountTakedown e = AccountTakedown e'
  | fAccountEscalate => AccountEscalate e = AccountEscalate e'
  | fAccountAcknowledge => AccountAcknowledge e = AccountAcknowledge e'
  | fRecordLabels => RecordLabels e = RecordLabels e'
  | fRecordFlags => RecordFlags e = RecordFlags e'
  | fRecordReports => RecordReports e = RecordReports e'
  | fRecordTakedown => RecordTakedown e = RecordTakedown e'
  | fBlobTakedowns => BlobTakedowns e = BlobTakedowns e'
  | fRejectEvent => RejectEvent e = RejectEvent e'
  | fNotifyServices => NotifyServices e = NotifyServices e'
  end.

(** A call leaves every field but its own as it is. *)
Lemma call_other_field (f : Field) (e : Effects) (m : Method) :
  field_of m <> f -> same_field f (call e m) e.
Proof.
  destruct m, f; cbn [field_of same_field]; intros Hne; try (now destruct Hne);
    cbn [call]; unfold_methods; split_loops e; project_fields; reflexivity.
Qed.

(** What a call does to its own field depends on that field alone. *)
Lemma call_own_field (f : Field) (e e' : Effects) (m : Method) :
  field_of m = f -> same_field f e e' -> same_field f (call e m) (call e' m).
Proof.
  intros <-. destruct m; cbn [field_of same_field]; intros Heq;
    cbn [call]; unfold_methods; rewrite ?Heq; split_loops e'; project_fields;
    rewrite ?Heq; reflexivity.
Qed.

Lemma same_field_trans (f : Field) (e1 e2 e3 : Effects) :
  same_field f e1 e2 -> same_field f e2 e3 -> same_field f e1 e3.
Proof. destruct f; cbn [same_field]; congruence. Qed.

(** The calls of a sequence that write the field [f]. *)
Definition calls_writing (f : Field) (ms : list Method) : list Method :=
  filter (fun m => field_of m = f) ms.

Lemma calls_writing_cons (f : Field) (m : Method) (ms : list Method) :
  calls_writing f (m :: ms) =
  if decide (field_of m = f) then m :: calls_writing f ms else calls_writing f ms.
Proof. reflexivity. Qed.

Lemma calls_on_own_field (f : Field) (ms : list Method) (e e' : Effects) :
  same_field f e e' ->
  same_field f (calls_on e ms) (calls_on e' (calls_writing f ms)).
Proof.
  revert e e'. induction ms as [|m ms IH]; intros e e' Heq.
  - exact Heq.
  - rewrite calls_writing_cons, calls_on_cons.
    destruct (decide (field_of m = f)) as [Hf|Hf].
    + rewrite calls_on_cons. apply IH. now apply call_own_field.
    + apply IH. eapply same_field_trans; [|exact Heq].
      now apply call_other_field.
Qed.

(** X13: Each field of an [Effects] is decided by the calls of its own methods
    alone: leaving every other call out of a sequence gives the same
    field. In particular calls on the account leave the fields of the
    record as they are, and the other way round. *)
Theorem a_field_depends_on_its_own_calls (f : Field) (e : Effects) (ms : list Method) :
  same_field f (calls_on e ms) (calls_on e (calls_writing f ms)) /\
  (calls_writing f ms = [] -> same_field f (calls_on e ms) e).
Proof.
  assert (Hown : same_field f (calls_on e ms) (calls_on e (calls_writing f ms))).
  { apply calls_on_own_field. destruct f; reflexivity. }
  split; [exact Hown|].
  intros Hnone. now rewrite Hnone in Hown.
Qed.

(** Within one list the order of the calls shows: the values are kept in
    the order in which they first came. *)
Example labels_in_order_of_first_call :
  AccountLabels
    (calls_on zero [mAddAccountLabel "b"; mAddAccountLabel "a"; mAddAccountLabel "b"])
  = ["b"; "a"].
Proof. reflexivity. Qed.

End effects_facts.

(** * How the paged handlers answer *)

Module handler_facts.

Import pds pds_facts.

Section Server.

Local Open Scope eff_scope.

Variable Out : Type.
Variable handle : Operation -> error + Out.
Variable write_JSON : Z -> Out -> option error.

Local Abbreviation Handler := (pds.Handler Out).
Local Abbreviation invoke := (pds.invoke Out handle).
Local Abbreviation JSON := (pds.JSON Out write_JSON).

(** The three ways a handler can end: before any call, with the error of
    a parameter; after the call of one operation, with the error of the
    operation and no response; or after the call and one response with
    status 200 that carries what the operation returned, with what
    writing the response returned. *)
Definition answers (r : Handler) : Prop :=
  (exists err, r = ([], inl err)) \/
  (exists op err, handle op = inl err /\ r = ([Handled op], inl err)) \/
  (exists op out,
      handle op = inr out /\
      r = ([Handled op; WroteJSON 200 out],
           match write_JSON 200 out with Some err => inl err | None => inr tt end)).

Lemma invoke_then_JSON_answers (op : Operation) :
  answers (out <- invoke op ;; JSON 200 out).
Proof.
  unfold answers, pds.invoke, pds.JSON, bind.
  destruct (handle op) as [err|out] eqn:Hop.
  - right. left. exists op, err. now split.
  - right. right. exists op, out. split; [exact Hop|].
    cbn [app]. reflexivity.
Qed.

(** The reading of a parameter, which stops the handler or goes on. *)
Lemma bind_answers {A : Type} (m : Eff (Event Out) error A) (k : A -> Handler) :
  (exists err, m = stop err) \/ (exists a, m = ret a) ->
  (forall a, answers (k a)) ->
  answers (bind m k).
Proof.
  intros [(err & ->) | (a & ->)] Hk.
  - left. exists err. reflexivity.
  - rewrite bind_ret. apply Hk.
Qed.

Lemma or_return_cases {A : Type} (r : A * option error) :
  (exists err, pds.or_return Out r = stop err) \/ (exists a, pds.or_return Out r = ret a).
Proof. destruct r as [v [err|]]; [left|right]; eexists; reflexivity. Qed.

Lemma parameter_cases {A : Type} (p : string) (parse : string -> A * option error) (d : A) :
  (exists err, (if decide (p <> "") then pds.or_return Out (parse p) else ret d)
               = stop err) \/
  (exists a, (if decide (p <> "") then pds.or_return Out (parse p) else ret d)
             = ret a).
Proof.
  destruct (decide (p <> "")); [apply or_return_cases|right; eexists; reflexivity].
Qed.

Lemma optional_parameter_cases {A : Type} (p : string) (parse : string -> A * option error) :
  (exists err, (if decide (p <> "")
                then bind (pds.or_return Out (parse p)) (fun v => ret (Some v))
                else ret None) = stop err) \/
  (exists a, (if decide (p <> "")
              then bind (pds.or_return Out (parse p)) (fun v => ret (Some v))
              else ret None) = ret a).
Proof.
  destruct (decide (p <> "")); [|right; eexists; reflexivity].
  destruct (parse p) as [v [err|]]; [left|right]; eexists; reflexivity.
Qed.

(** X14: Each of the six handlers calls at most one operation, writes a
    response only after the operation succeeded, always with status 200
    and with what the operation returned, and returns the error of the
    operation as it is, without a response. *)
Theorem paged_handlers_call_then_answer (c : Context) :
  answers (HandleComAtprotoAdminGetInviteCodes Out handle write_JSON c) /\
  answers (HandleComAtprotoLabelQueryLabels Out handle write_JSON c) /\
  answers (HandleComAtprotoRepoListRecords Out handle write_JSON c) /\
  answers (HandleComAtprotoSyncListBlobs Out handle write_JSON c) /\
  answers (HandleComAtprotoSyncListRepos Out handle write_JSON c) /\
  answers (HandleComAtprotoTempFetchLabels Out handle write_JSON c).
Proof.
  unfold HandleComAtprotoAdminGetInviteCodes, HandleComAtprotoLabelQueryLabels,
         HandleComAtprotoRepoListRecords, HandleComAtprotoSyncListBlobs,
         HandleComAtprotoSyncListRepos, HandleComAtprotoTempFetchLabels.
  repeat split;
    repeat first
      [ apply invoke_then_JSON_answers
      | apply bind_answers; [first [apply parameter_cases | apply optional_parameter_cases]|];
        intros ? ].
Qed.

(** The [limit] of the request reads as [n]: it is absent or empty and
    [n] is the default [d], or [Atoi] accepts it with the value [n]. *)
Definition limit_reads (c : Context) (d n : Z) : Prop :=
  (QueryParam c "limit" = "" /\ n = d) \/
  (QueryParam c "limit" <> "" /\ strconv.Atoi (QueryParam c "limit") = (n, None)).

Lemma limit_reads_ret (c : Context) (d n : Z) :
  limit_reads c d n ->
  (if decide (QueryParam c "limit" <> "")
   then pds.or_return Out (strconv.Atoi (QueryParam c "limit"))
   else ret d) = ret n.
Proof.
  intros [[Hp ->] | [Hp Ha]].
  - rewrite Hp. destruct (decide ("" <> "")) as [Hne|_]; [now destruct Hne|reflexivity].
  - destruct (decide (QueryParam c "limit" <> "")) as [_|Hn]; [|contradiction].
    now rewrite Ha.
Qed.

(** X15: A [limit] that [Atoi] accepts is passed to the operation as it is:
    the handler does not bound it, so that zero, a negative number and
    the largest [int] all reach the operation. *)
Theorem accepted_limit_is_passed_as_is (c : Context) (d n : Z) :
  limit_reads c d n ->
  (d = 100 ->
   HandleComAtprotoAdminGetInviteCodes Out handle write_JSON c =
     (out <- invoke (handleComAtprotoAdminGetInviteCodes
                       (QueryParam c "cursor") n (QueryParam c "sort")) ;;
      JSON 200 out)) /\
  (d = 50 ->
   HandleComAtprotoLabelQueryLabels Out handle write_JSON c =
     (out <- invoke (handleComAtprotoLabelQueryLabels
                       (QueryParam c "cursor") n
                       (QueryParams_at c "sources") (QueryParams_at c "uriPatterns")) ;;
      JSON 200 out)) /\
  (d = 500 ->
   HandleComAtprotoSyncListBlobs Out handle write_JSON c =
     (out <- invoke (handleComAtprotoSyncListBlobs
                       (QueryParam c "cursor") (QueryParam c "did") n
                       (QueryParam c "since")) ;;
      JSON 200 out)) /\
  (d = 500 ->
   HandleComAtprotoSyncListRepos Out handle write_JSON c =
     (out <- invoke (handleComAtprotoSyncListRepos (QueryParam c "cursor") n) ;;
      JSON 200 out)).
Proof.
  intros Hn.
  unfold HandleComAtprotoAdminGetInviteCodes, HandleComAtprotoLabelQueryLabels,
         HandleComAtprotoSyncListBlobs, HandleComAtprotoSyncListRepos.
  repeat split; intros ->; cbv zeta;
    rewrite (limit_reads_ret c _ n Hn), bind_ret; reflexivity.
Qed.

(** X16: The [reverse] parameter of listRecords is optional: when it is absent
    or empty the operation gets no value; a value that [ParseBool]
    accepts is passed on; any other value makes the handler return the
    error of [ParseBool] before any call. *)
Theorem listRecords_reverse_is_optional (c : Context) (n : Z) :
  limit_reads c 50 n ->
  (QueryParam c "reverse" = "" ->
   HandleComAtprotoRepoListRecords Out handle write_JSON c =
     (out <- invoke (handleComAtprotoRepoListRecords
                       (QueryParam c "collection") (QueryParam c "cursor") n
                       (QueryParam c "repo") None
                       (QueryParam c "rkeyEnd") (QueryParam c "rkeyStart")) ;;
      JSON 200 out)) /\
  (forall b,
      QueryParam c "reverse" <> "" ->
      strconv.ParseBool (QueryParam c "reverse") = (b, None) ->
      HandleComAtprotoRepoListRecords Out handle write_JSON c =
        (out <- invoke (handleComAtprotoRepoListRecords
                          (QueryParam c "collection") (QueryParam c "cursor") n
                          (QueryParam c "repo") (Some b)
                          (QueryParam c "rkeyEnd") (QueryParam c "rkeyStart")) ;;
         JSON 200 out)) /\
  (forall b err,
      QueryParam c "reverse" <> "" ->
      strconv.ParseBool (QueryParam c "reverse") = (b, Some err) ->
      HandleComAtprotoRepoListRecords Out handle write_JSON c = ([], inl err)).
Proof.
  intros Hn. unfold HandleComAtprotoRepoListRecords. cbv zeta.
  rewrite (limit_reads_ret c _ n Hn), bind_ret.
  split; [|split].
  - intros Hr. rewrite Hr.
    destruct (decide ("" <> "")) as [Hne|_]; [now destruct Hne|].
    now rewrite bind_ret.
  - intros b Hr Hb.
    destruct (decide (QueryParam c "reverse" <> "")) as [_|Hne]; [|contradiction].
    rewrite Hb. cbn [pds.or_return]. now rewrite !bind_ret.
  - intros b err Hr Hb.
    destruct (decide (QueryParam c "reverse" <> "")) as [_|Hne]; [|contradiction].
    rewrite Hb. reflexivity.
Qed.

(** X17: The [since] parameter of fetchLabels is optional in the same way,
    with [Atoi] in the place of [ParseBool]. *)
Theorem fetchLabels_since_is_optional (c : Context) (n : Z) :
  limit_reads c 50 n ->
  (QueryParam c "since" = "" ->
   HandleComAtprotoTempFetchLabels Out handle write_JSON c =
     (out <- invoke (handleComAtprotoTempFetchLabels n None) ;; JSON 200 out)) /\
  (forall since,
      QueryParam c "since" <> "" ->
      strconv.Atoi (QueryParam c "since") = (since, None) ->
      HandleComAtprotoTempFetchLabels Out handle write_JSON c =
        (out <- invoke (handleComAtprotoTempFetchLabels n (Some since)) ;;
         JSON 200 out)) /\
  (forall v err,
      QueryParam c "since" <> "" ->
      strconv.Atoi (QueryParam c "since") = (v, Some err) ->
      HandleComAtprotoTempFetchLabels Out handle write_JSON c = ([], inl err)).
Proof.
  intros Hn. unfold HandleComAtprotoTempFetchLabels. cbv zeta.
  rewrite (limit_reads_ret c _ n Hn), bind_ret.
  split; [|split].
  - intros Hr. rewrite Hr.
    destruct (decide ("" <> "")) as [Hne|_]; [now destruct Hne|].
    now rewrite bind_ret.
  - intros since Hr Hb.
    destruct (decide (QueryParam c "since" <> "")) as [_|Hne]; [|contradiction].
    rewrite Hb. cbn [pds.or_return]. now rewrite !bind_ret.
  - intros v err Hr Hb.
    destruct (decide (QueryParam c "since" <> "")) as [_|Hne]; [|contradiction].
    rewrite Hb. reflexivity.
Qed.

End Server.

(** The strings [ParseBool] accepts, and what it makes of them. *)
Lemma ParseBool_accepts (str : string) :
  (strconv.ParseBool str = (true, None) <->
   In str ["1"; "t"; "T"; "true"; "TRUE"; "True"]) /\
  (strconv.ParseBool str = (false, None) <->
   In str ["0"; "f"; "F"; "false"; "FALSE"; "False"]).
Proof.
  unfold strconv.ParseBool.
  destruct (existsb (String.eqb str) ["1"; "t"; "T"; "true"; "TRUE"; "True"]) eqn:Ht.
  - apply existsb_exists in Ht as (x & Hin & Hx). apply String.eqb_eq in Hx. subst x.
    split; [tauto|]. split; [discriminate|].
    intros Hf. cbn [In] in Hin, Hf.
    repeat (destruct Hin as [<- | Hin];
            [repeat (destruct Hf as [Hf | Hf]; [discriminate Hf|]); contradiction|]).
    contradiction.
  - assert (Hnt : ~ In str ["1"; "t"; "T"; "true"; "TRUE"; "True"]).
    { intros Hin. apply not_true_iff_false in Ht. apply Ht.
      apply existsb_exists. exists str. split; [exact Hin|apply String.eqb_refl]. }
    destruct (existsb (String.eqb str) ["0"; "f"; "F"; "false"; "FALSE"; "False"]) eqn:Hf.
    + apply existsb_exists in Hf as (x & Hin & Hx). apply String.eqb_eq in Hx. subst x.
      split; [split; [discriminate|tauto]|tauto].
    + split; (split; [discriminate|]); [tauto|].
      intros Hin. apply not_true_iff_false in Hf. exfalso. apply Hf.
      apply existsb_exists. exists str. split; [exact Hin|apply String.eqb_refl].
Qed.

(** Requests with a limit of zero and a negative limit. *)
Definition limit_request (p : string) : Context :=
  {| QueryParams := {[ "limit" := [p] ]} |}.

Lemma accepted_limit_is_passed_as_is_witness :
  HandleComAtprotoSyncListRepos unit (fun _ => inr tt) (fun _ _ => None)
    (limit_request "-5")
  = ([Handled (handleComAtprotoSyncListRepos "" (-5)); WroteJSON 200 tt], inr tt).
Proof.
  destruct (accepted_limit_is_passed_as_is unit (fun _ => inr tt) (fun _ _ => None)
              (limit_request "-5") 500 (-5)) as (_ & _ & _ & Hrepos).
  - right. split; [discriminate|]. vm_compute. reflexivity.
  - rewrite (Hrepos eq_refl). reflexivity.
Defined.

Example listRepos_limit_zero :
  HandleComAtprotoSyncListRepos unit (fun _ => inr tt) (fun _ _ => None)
    (limit_request "0")
  = ([Handled (handleComAtprotoSyncListRepos "" 0); WroteJSON 200 tt], inr tt).
Proof. vm_compute. reflexivity. Qed.

Example listRepos_limit_beyond_int :
  HandleComAtprotoSyncListRepos unit (fun _ => inr tt) (fun _ _ => None)
    (limit_request "9223372036854775808")
  = ([], inl (NumError "Atoi" "9223372036854775808" "value out of range")).
Proof. vm_compute. reflexivity. Qed.

(** [GET /xrpc/com.atproto.repo.listRecords?reverse=true] and
    [GET /xrpc/com.atproto.temp.fetchLabels?limit=10&since=7]. *)
Definition reverse_request : Context :=
  {| QueryParams := {[ "reverse" := ["true"] ]} |}.

Definition since_request : Context :=
  {| QueryParams := {[ "limit" := ["10"]; "since" := ["7"] ]} |}.

Lemma listRecords_reverse_is_optional_witness :
  HandleComAtprotoRepoListRecords unit (fun _ => inr tt) (fun _ _ => None) reverse_request
  = ([Handled (handleComAtprotoRepoListRecords "" "" 50 "" (Some true) "" "");
      WroteJSON 200 tt], inr tt).
Proof.
  destruct (listRecords_reverse_is_optional unit (fun _ => inr tt) (fun _ _ => None)
              reverse_request 50) as (_ & Hgiven & _).
  - left. split; reflexivity.
  - rewrite (Hgiven true); [reflexivity|discriminate|reflexivity].
Defined.

Lemma fetchLabels_since_is_optional_witness :
  HandleComAtprotoTempFetchLabels unit (fun _ => inr tt) (fun _ _ => None) since_request
  = ([Handled (handleComAtprotoTempFetchLabels 10 (Some 7)); WroteJSON 200 tt], inr tt).
Proof.
  destruct (fetchLabels_since_is_optional unit (fun _ => inr tt) (fun _ _ => None)
              since_request 10) as (_ & Hgiven & _).
  - right. split; [discriminate|]. vm_compute. reflexivity.
  - rewrite (Hgiven 7); [reflexivity|discriminate|vm_compute; reflexivity].
Defined.

End handler_facts.

(** * How the other handlers answer *)

Module pds_stubs_facts.

Import pds_stubs.

Section Server.

Local Open Scope eff_scope.

Variable Out : Type.
Variable handle : Operation -> error + Out.
Variable write_JSON : Z -> Out -> option error.
Variable write_Stream : Z -> string -> Out -> option error.

Local Abbreviation Handler := (pds_stubs.Handler Out).
Local Abbreviation invoke := (pds_stubs.invoke Out handle).
Local Abbreviation JSON := (pds_stubs.JSON Out write_JSON).
Local Abbreviation Stream := (pds_stubs.Stream Out write_Stream).

(** The value of a boolean parameter that defaults to [true]. *)
Definition bool_reads (c : pds.Context) (name : string) (b : bool) : Prop :=
  (pds.QueryParam c name = "" /\ b = true) \/
  (pds.QueryParam c name <> "" /\ strconv.ParseBool (pds.QueryParam c name) = (b, None)).

(** The parameter is given and [ParseBool] refuses it. *)
Definition bool_refused (c : pds.Context) (name : string) (err : error) : Prop :=
  pds.QueryParam c name <> "" /\
  snd (strconv.ParseBool (pds.QueryParam c name)) = Some err.

Lemma bool_reads_ret (c : pds.Context) (name : string) (b : bool) :
  bool_reads c name b ->
  (if decide (pds.QueryParam c name <> "")
   then pds_stubs.or_return Out (strconv.ParseBool (pds.QueryParam c name))
   else ret true) = ret b.
Proof.
  intros [[Hp ->] | [Hp Ha]].
  - rewrite Hp. destruct (decide ("" <> "")) as [Hne|_]; [now destruct Hne|reflexivity].
  - destruct (decide (pds.QueryParam c name <> "")) as [_|Hn]; [|contradiction].
    now rewrite Ha.
Qed.

Lemma bool_refused_stop (c : pds.Context) (name : string) (err : error) :
  bool_refused c name err ->
  (if decide (pds.QueryParam c name <> "")
   then pds_stubs.or_return Out (strconv.ParseBool (pds.QueryParam c name))
   else ret true) = stop err.
Proof.
  intros [Hp Ha].
  destruct (decide (pds.QueryParam c name <> "")) as [_|Hn]; [|contradiction].
  destruct (strconv.ParseBool (pds.QueryParam c name)) as [v e].
  cbn [snd] in Ha. now subst e.
Qed.

(** X18: getAccountInviteCodes takes [createAvailable] and [includeUsed] as
    [true] when they are absent or empty and as [ParseBool] reads them
    otherwise; a value that [ParseBool] refuses makes the handler return
    the error before any call, the one of [createAvailable] first. *)
Theorem invite_code_flags_default_to_true (c : pds.Context) :
  (forall createAvailable includeUsed,
      bool_reads c "createAvailable" createAvailable ->
      bool_reads c "includeUsed" includeUsed ->
      HandleComAtprotoServerGetAccountInviteCodes Out handle write_JSON c =
        (out <- invoke (handleComAtprotoServerGetAccountInviteCodes
                          createAvailable includeUsed) ;;
         JSON 200 out)) /\
  (forall err,
      bool_refused c "createAvailable" err ->
      HandleComAtprotoServerGetAccountInviteCodes Out handle write_JSON c
      = ([], inl err)) /\
  (forall createAvailable err,
      bool_reads c "createAvailable" createAvailable ->
      bool_refused c "includeUsed" err ->
      HandleComAtprotoServerGetAccountInviteCodes Out handle write_JSON c
      = ([], inl err)).
Proof.
  unfold HandleComAtprotoServerGetAccountInviteCodes. cbv zeta.
  split; [|split].
  - intros a u Ha Hu.
    rewrite (bool_reads_ret _ _ _ Ha), pds_facts.bind_ret.
    rewrite (bool_reads_ret _ _ _ Hu), pds_facts.bind_ret. reflexivity.
  - intros err Ha. rewrite (bool_refused_stop _ _ _ Ha). reflexivity.
  - intros a err Ha Hu.
    rewrite (bool_reads_ret _ _ _ Ha), pds_facts.bind_ret.
    rewrite (bool_refused_stop _ _ _ Hu). reflexivity.
Qed.

(** A handler that streams ends after the call of its operation with the
    error of the operation and no response, or after one response with
    status 200 and the given media type that carries what the operation
    returned. *)
Definition streams (contentType : string) (op : Operation) (r : Handler) : Prop :=
  (exists err, handle op = inl err /\ r = ([Handled op], inl err)) \/
  (exists out,
      handle op = inr out /\
      r = ([Handled op; WroteStream 200 contentType out],
           match write_Stream 200 contentType out with
           | Some err => inl err
           | None => inr tt
           end)).

Lemma invoke_then_Stream (contentType : string) (op : Operation) :
  streams contentType op (out <- invoke op ;; Stream 200 contentType out).
Proof.
  unfold streams, pds_stubs.invoke, pds_stubs.Stream, bind.
  destruct (handle op) as [err|out] eqn:Hop.
  - left. exists err. now split.
  - right. exists out. split; [reflexivity|]. cbn [app]. reflexivity.
Qed.

(** X19: The five sync handlers that return data always call their operation,
    whatever the query holds, with the parameters as the query gives
    them; getBlob answers with [application/octet-stream] and the four
    others with [application/vnd.ipld.car], and only when the operation
    succeeded. *)
Theorem sync_handlers_stream (c : pds.Context) :
  streams "application/octet-stream"
    (handleComAtprotoSyncGetBlob (pds.QueryParam c "cid") (pds.QueryParam c "did"))
    (HandleComAtprotoSyncGetBlob Out handle write_Stream c) /\
  streams "application/vnd.ipld.car"
    (handleComAtprotoSyncGetBlocks (pds.QueryParams_at c "cids") (pds.QueryParam c "did"))
    (HandleComAtprotoSyncGetBlocks Out handle write_Stream c) /\
  streams "application/vnd.ipld.car"
    (handleComAtprotoSyncGetCheckout (pds.QueryParam c "did"))
    (HandleComAtprotoSyncGetCheckout Out handle write_Stream c) /\
  streams "application/vnd.ipld.car"
    (handleComAtprotoSyncGetRecord
       (pds.QueryParam c "collection") (pds.QueryParam c "commit")
       (pds.QueryParam c "did") (pds.QueryParam c "rkey"))
    (HandleComAtprotoSyncGetRecord Out handle write_Stream c) /\
  streams "application/vnd.ipld.car"
    (handleComAtprotoSyncGetRepo (pds.QueryParam c "did") (pds.QueryParam c "since"))
    (HandleComAtprotoSyncGetRepo Out handle write_Stream c).
Proof. repeat split; apply invoke_then_Stream. Qed.

End Server.

(** [GET /xrpc/com.atproto.server.getAccountInviteCodes?includeUsed=0] *)
Definition unused_codes_request : pds.Context :=
  {| pds.QueryParams := {[ "includeUsed" := ["0"] ]} |}.

Example getAccountInviteCodes_unused :
  HandleComAtprotoServerGetAccountInviteCodes unit (fun _ => inr tt) (fun _ _ => None)
    unused_codes_request
  = ([Handled (handleComAtprotoServerGetAccountInviteCodes true false); WroteJSON 200 tt],
     inr tt).
Proof. vm_compute. reflexivity. Qed.

Example getAccountInviteCodes_yes :
  HandleComAtprotoServerGetAccountInviteCodes unit (fun _ => inr tt) (fun _ _ => None)
    {| pds.QueryParams := {[ "createAvailable" := ["yes"] ]} |}
  = ([], inl (NumError "ParseBool" "yes" "invalid syntax")).
Proof. vm_compute. reflexivity. Qed.

End pds_stubs_facts.

(** * The request of [GraphGetListBlocks] *)

Module bsky_facts.

Import bsky.

Section Client.

Variable ListView : Type.
Variable Do : xrpc.Request -> error + GraphGetListBlocks_Output ListView.

(** The request [GraphGetListBlocks] builds. *)
Lemma GraphGetListBlocks_calls (cursor : string) (limit : Z) :
  fst (GraphGetListBlocks ListView Do cursor limit) =
  [{| xrpc.kind := xrpc.Query; xrpc.inpenc := "";
      xrpc.method := "app.bsky.graph.getListBlocks";
      xrpc.params := <["cursor" := xrpc.ParamString cursor]>
                       (<["limit" := xrpc.ParamInt64 limit]> ∅);
      xrpc.bodyobj := None |}].
Proof. unfold GraphGetListBlocks. cbv zeta. destruct (Do _); reflexivity. Qed.

(** X20: [GraphGetListBlocks] makes one request, a query without a body to
    [app.bsky.graph.getListBlocks] whose parameters are the cursor and
    the limit and nothing else, also when the cursor is empty or the
    limit is zero; it returns the output exactly when [Do] succeeds and
    the error of [Do] otherwise, never both; and different arguments
    give different requests. *)
Theorem GraphGetListBlocks_request (cursor : string) (limit : Z) :
  exists req,
    fst (GraphGetListBlocks ListView Do cursor limit) = [req] /\
    xrpc.kind req = xrpc.Query /\
    xrpc.inpenc req = "" /\
    xrpc.method req = "app.bsky.graph.getListBlocks" /\
    xrpc.bodyobj req = None /\
    xrpc.params req !! "cursor" = Some (xrpc.ParamString cursor) /\
    xrpc.params req !! "limit" = Some (xrpc.ParamInt64 limit) /\
    dom (xrpc.params req) = {[ "cursor"; "limit" ]} /\
    snd (GraphGetListBlocks ListView Do cursor limit) =
      match Do req with
      | inl err => (None, Some err)
      | inr out => (Some out, None)
      end /\
    (forall cursor' limit',
        fst (GraphGetListBlocks ListView Do cursor' limit') = [req] ->
        cursor' = cursor /\ limit' = limit).
Proof.
  eexists. split; [apply GraphGetListBlocks_calls|].
  cbn [xrpc.kind xrpc.inpenc xrpc.method xrpc.bodyobj xrpc.params].
  split; [reflexivity|]. split; [reflexivity|]. split; [reflexivity|].
  split; [reflexivity|].
  split; [apply lookup_insert_eq|].
  split; [rewrite lookup_insert_ne by done; apply lookup_insert_eq|].
  split; [rewrite !dom_insert_L, dom_empty_L; set_solver|].
  split; [unfold GraphGetListBlocks; cbv zeta; destruct (Do _); reflexivity|].
  intros cursor' limit' Heq. rewrite GraphGetListBlocks_calls in Heq.
  apply (f_equal (fun l => match l with r :: _ => xrpc.params r | [] => ∅ end)) in Heq.
  cbn [xrpc.params] in Heq.
  pose proof (f_equal (fun m : gmap string xrpc.Param => m !! "cursor") Heq) as Hc.
  pose proof (f_equal (fun m : gmap string xrpc.Param => m !! "limit") Heq) as Hl.
  cbn beta in Hc, Hl.
  rewrite !lookup_insert_eq in Hc.
  rewrite !(lookup_insert_ne _ "cursor" "limit"), !lookup_insert_eq in Hl by done.
  split; congruence.
Qed.

End Client.

End bsky_facts.
